(** * Holt-Winters triple exponential smoothing (src/app/src/HoltWintersDemo.js)

    A shallow embedding of the function [holtWinters] of the demo component,
    and the properties of the forecaster proved or refuted on it.

    The function is arithmetic on JavaScript numbers.  It is embedded once,
    generically in the number type ([JsNum]), and read at two instances:

    - [float_JsNum]: IEEE 754 binary64, the numbers JavaScript really has
      (primitive floats; NaN, infinities and signed zeros included);
    - [exact_JsNum]: exact real arithmetic in which a division by zero and a
      read outside an array are undefined and undefinedness propagates.

    Array lengths are natural numbers: the engine's limit on the length of an
    array and memory exhaustion are not modelled. *)

From Stdlib Require Import Floats Reals Lra Lia ZArith.
From stdpp Require Import base list strings pretty.

#[local] Set Warnings "-inexact-float".

(** * The embedding *)

(** ** Numbers *)

(** What the code needs of a number type: the four operations, the conversion
    of a loop counter, and the number that [undefined] becomes in arithmetic
    (an index outside an array reads [undefined], and ToNumber(undefined) is
    NaN). *)
Class JsNum (num : Type) := {
  nadd : num -> num -> num;
  nsub : num -> num -> num;
  nmul : num -> num -> num;
  ndiv : num -> num -> num;
  of_nat : nat -> num;
  nan : num
}.

Declare Scope js_scope.
Delimit Scope js_scope with js.
Infix "+" := nadd : js_scope.
Infix "-" := nsub : js_scope.
Infix "*" := nmul : js_scope.
Infix "/" := ndiv : js_scope.

(** Binary64. A counter is below 2^53, so its conversion is exact. *)
#[export] Instance float_JsNum : JsNum float := {
  nadd := PrimFloat.add;
  nsub := PrimFloat.sub;
  nmul := PrimFloat.mul;
  ndiv := PrimFloat.div;
  of_nat n := PrimFloat.of_uint63 (Uint63.of_Z (Z.of_nat n));
  nan := PrimFloat.nan
}.

(** Exact arithmetic with undefinedness: [None] is an undefined result. *)
Abbreviation exact := (option R).

Definition exact_lift2 (f : R -> R -> R) (x y : exact) : exact :=
  match x, y with
  | Some a, Some b => Some (f a b)
  | _, _ => None
  end.

Definition exact_div (x y : exact) : exact :=
  match x, y with
  | Some a, Some b => if Req_dec_T b 0 then None else Some (a / b)%R
  | _, _ => None
  end.

#[export] Instance exact_JsNum : JsNum exact := {
  nadd := exact_lift2 Rplus;
  nsub := exact_lift2 Rminus;
  nmul := exact_lift2 Rmult;
  ndiv := exact_div;
  of_nat n := Some (INR n);
  nan := None
}.

(** ** Completions *)

(** How a call ends: with a value, with a thrown exception, or (in the model
    only) with the fuel of a loop used up. *)
Inductive JsError : Type := TypeError.

Inductive Completion (A : Type) : Type :=
| Normal (a : A)
| Throws (e : JsError)
| OutOfFuel.
Arguments Normal {A} a.
Arguments Throws {A} e.
Arguments OutOfFuel {A}.

Definition cbind {A B : Type} (c : Completion A) (k : A -> Completion B) : Completion B :=
  match c with
  | Normal a => k a
  | Throws e => Throws e
  | OutOfFuel => OutOfFuel
  end.

Notation "x <~ c ;; k" := (cbind c (fun x => k))
  (at level 20, c at level 99, k at level 200, only parsing).

(** ** The program *)

Section HoltWinters.
Context {num : Type} `{JsNum num}.
Local Open Scope js_scope.

(** An element of [data]: the label, when the record has one, and the observed
    value. *)
Record Observation : Type := { month : option string; value : num }.

(** An element of [results]: [{...data[i], fitted}] for a fitted point,
    [{month, value: null, fitted}] for a forecast. *)
Record Point : Type := {
  pt_month : option string;
  pt_value : option num;
  fitted : num
}.

(** [a[i]] in arithmetic: [undefined] outside the array, which is NaN there. *)
Definition get (a : list num) (i : nat) : num := default nan (a !! i).

(** Lines 13-18: [for (let j = i; j < n; j += seasonalPeriod)], accumulating
    [sum] and [count]. *)
Fixpoint phaseLoop (series : list num) (seasonalPeriod : nat)
    (fuel j : nat) (sum : num) (count : nat) : Completion (num * nat) :=
  match fuel with
  | O => OutOfFuel
  | S fuel' =>
      if j <? length series
      then phaseLoop series seasonalPeriod fuel' (j + seasonalPeriod)
             (sum + get series j) (count + 1)
      else Normal (sum, count)
  end.

(** Lines 12-20, one iteration of the outer loop: [seasonals[i] = sum / count]. *)
Definition phaseStep (series : list num) (seasonalPeriod : nat)
    (acc : Completion (list num)) (i : nat) : Completion (list num) :=
  seasonals <~ acc ;;
  sc <~ phaseLoop series seasonalPeriod (S (length series)) i (of_nat 0) 0 ;;
  Normal (<[i := fst sc / of_nat (snd sc)]> seasonals).

(** Lines 11-20. *)
Definition rawSeasonals (series : list num) (seasonalPeriod : nat) : Completion (list num) :=
  fold_left (phaseStep series seasonalPeriod) (seq 0 seasonalPeriod)
    (Normal (replicate seasonalPeriod (of_nat 0))).

(** [a.reduce((a, b) => a + b)]: no initial value, so an empty array throws. *)
Definition reduce_add (a : list num) : Completion num :=
  match a with
  | [] => Throws TypeError
  | x :: rest => Normal (fold_left nadd rest x)
  end.

(** Line 23: [seasonals.reduce((a, b) => a + b) / seasonalPeriod], the mean of
    the table. *)
Definition seasonalMean (seasonals : list num) (seasonalPeriod : nat) : Completion num :=
  total <~ reduce_add seasonals ;;
  Normal (total / of_nat seasonalPeriod).

(** Lines 11-24: the seasonal table after initialisation and normalisation
    ([forEach] replaces every entry by its quotient by the mean). *)
Definition initSeasonals (series : list num) (seasonalPeriod : nat) : Completion (list num) :=
  seasonals <~ rawSeasonals series seasonalPeriod ;;
  seasonalAverage <~ seasonalMean seasonals seasonalPeriod ;;
  Normal ((fun val => val / seasonalAverage) <$> seasonals).

(** The variables the two loops of lines 32-57 update. *)
Record State : Type := {
  level : num;
  trend : num;
  seasonals : list num;
  results : list Point
}.

(** Lines 33-45: the iteration of the recurrence at index [i], where [d] is
    [data[i]].  [i % seasonalPeriod] is below the length of the table whenever
    the loop is reached, so the assignment never extends the array. *)
Definition recurrenceStep (alpha beta gamma : num) (seasonalPeriod : nat)
    (st : State) (i : nat) (d : Observation) : State :=
  let value := value d in
  let lastLevel := level st in
  let p := i mod seasonalPeriod in
  let level' := alpha * (value / get (seasonals st) p)
                + (of_nat 1 - alpha) * (lastLevel + trend st) in
  let trend' := beta * (level' - lastLevel) + (of_nat 1 - beta) * trend st in
  let seasonals' :=
    <[p := gamma * (value / level') + (of_nat 1 - gamma) * get (seasonals st) p]>
      (seasonals st) in
  {| level := level';
     trend := trend';
     seasonals := seasonals';
     results := results st ++
       [{| pt_month := month d; pt_value := Some value;
           fitted := (level' + trend') * get seasonals' p |}] |}.

(** Lines 32-46: the loop over the observations from index [i] on. *)
Fixpoint recurrenceLoop (alpha beta gamma : num) (seasonalPeriod : nat)
    (rest : list Observation) (i : nat) (st : State) : State :=
  match rest with
  | [] => st
  | d :: rest' =>
      recurrenceLoop alpha beta gamma seasonalPeriod rest' (S i)
        (recurrenceStep alpha beta gamma seasonalPeriod st i d)
  end.

(** Lines 50-56: the record pushed by the iteration [i] of the forecast loop. *)
Definition forecastPoint (n seasonalPeriod : nat) (st : State) (i : nat) : Point :=
  let forecast := (level st + trend st * of_nat (i + 1))
                  * get (seasonals st) ((n + i) mod seasonalPeriod) in
  {| pt_month := Some ("Forecast " +:+ pretty (i + 1)%nat);
     pt_value := None;
     fitted := forecast |}.

(** Lines 49-57: one iteration of the forecast loop; only [results] changes. *)
Definition forecastStep (n seasonalPeriod : nat) (st : State) (i : nat) : State :=
  {| level := level st;
     trend := trend st;
     seasonals := seasonals st;
     results := results st ++ [forecastPoint n seasonalPeriod st i] |}.

(** Lines 26-29: the state the recurrence starts from.  On an empty series
    [level] is [undefined], which every use of it converts to NaN. *)
Definition initState (series : list num) (seasonalPeriod : nat) (table : list num) : State :=
  {| level := get series 0;
     trend := (get series seasonalPeriod - get series 0) / of_nat seasonalPeriod;
     seasonals := table;
     results := [] |}.

(** The state after the first [k] iterations of the recurrence. *)
Definition recurrence (data : list Observation) (alpha beta gamma : num)
    (seasonalPeriod : nat) (k : nat) (st : State) : State :=
  recurrenceLoop alpha beta gamma seasonalPeriod (take k data) 0 st.

(** Lines 49-57: the state after the first [k] iterations of the forecast loop. *)
Definition forecasts (n seasonalPeriod : nat) (k : nat) (st : State) : State :=
  fold_left (forecastStep n seasonalPeriod) (seq 0 k) st.

(** The state after [k] iterations of the recurrence of a call, [table] being
    the seasonal table the initialisation has left. *)
Definition stateAfter (data : list Observation) (alpha beta gamma : num)
    (seasonalPeriod : nat) (table : list num) (k : nat) : State :=
  recurrence data alpha beta gamma seasonalPeriod k
    (initState (value <$> data) seasonalPeriod table).

(** Lines 6-60. *)
Definition holtWinters (data : list Observation) (alpha beta gamma : num)
    (seasonalPeriod forecastSize : nat) : Completion (list Point) :=
  let series := value <$> data in
  let n := length series in
  table <~ initSeasonals series seasonalPeriod ;;
  let st0 := initState series seasonalPeriod table in
  let st1 := recurrenceLoop alpha beta gamma seasonalPeriod data 0 st0 in
  let st2 := forecasts n seasonalPeriod forecastSize st1 in
  Normal (results st2).

(** Lines 83-85: the call of the component, which leaves the period and the
    horizon to their defaults. *)
Definition processedData (data : list Observation) (alpha beta gamma : num) :
    Completion (list Point) :=
  holtWinters data alpha beta gamma 12 12.

End HoltWinters.

Arguments Observation num : clear implicits.
Arguments Point num : clear implicits.
Arguments State num : clear implicits.

(** ** The sample data and the component *)

(** What [generateSampleData] needs besides the arithmetic: [Math.sin],
    [Math.PI] and the literal [0.5]. *)
Class JsMath (num : Type) `{JsNum num} := {
  msin : num -> num;
  mpi : num;
  half : num
}.

(** In exact arithmetic the sine and pi of the reals.  (Binary64 has no
    instance: the primitive floats have no sine.) *)
#[export] Instance exact_JsMath : JsMath exact := {
  msin x := sin <$> x;
  mpi := Some PI;
  half := Some (1 / 2)%R
}.

Section SampleData.
Context {num : Type} `{JsMath num}.
Local Open Scope js_scope.

(** Lines 66-72: the record of the iteration [i]; [random] is what
    [Math.random()] returns in that iteration. *)
Definition samplePoint (random : num) (i : nat) : Observation num :=
  let trend := of_nat i * of_nat 2 in
  let seasonal := msin (of_nat i * mpi / of_nat 6) * of_nat 10 in
  let random := (random - half) * of_nat 10 in
  {| month := Some ("Month " +:+ pretty (i + 1)%nat);
     value := trend + seasonal + random + of_nat 50 |}.

(** Lines 63-75.  [draws i] is the result of the call of [Math.random] in the
    iteration [i], the only call of that iteration. *)
Definition generateSampleData (draws : nat -> num) : list (Observation num) :=
  fold_left (fun data i => data ++ [samplePoint (draws i) i]) (seq 0 36) [].

(** Lines 81-85 and 133: what the chart is given, [data] being the sample
    data of the first render and the coefficients those of the sliders. *)
Definition chartData (draws : nat -> num) (alpha beta gamma : num) :
    Completion (list (Point num)) :=
  processedData (generateSampleData draws) alpha beta gamma.

End SampleData.

(** * The vocabulary of the statements *)

(** NaN absorbs every operation. *)
Class NanAbsorbing (num : Type) `{JsNum num} : Prop := {
  nadd_nan_l x : (nan + x)%js = nan;
  nadd_nan_r x : (x + nan)%js = nan;
  nsub_nan_l x : (nan - x)%js = nan;
  nsub_nan_r x : (x - nan)%js = nan;
  nmul_nan_l x : (nan * x)%js = nan;
  nmul_nan_r x : (x * nan)%js = nan;
  ndiv_nan_l x : (nan / x)%js = nan;
  ndiv_nan_r x : (x / nan)%js = nan
}.

(** A state from which nothing but NaN can come: the level is NaN, or the
    trend is, or the whole seasonal table. *)
Definition poisoned {num : Type} `{JsNum num} (m : nat) (st : State num) : Prop :=
  level st = nan \/ trend st = nan
  \/ (length (seasonals st) = m /\ Forall (fun s => s = nan) (seasonals st)).

(** A zero of either sign, or NaN. *)
Definition zero_or_nan (x : float) : Prop :=
  match Prim2SF x with
  | S754_zero _ | S754_nan => True
  | _ => False
  end.

(** The sum of a list of reals. *)
Definition Rsum (l : list R) : R := foldr Rplus 0%R l.

(** ** Sample inputs *)

(** The three observations 1, 2, 3 used to exercise the theorems. *)
Definition obs (x : float) : Observation float := {| month := None; value := x |}.
Definition data123 : list (Observation float) := [obs 1; obs 2; obs 3].

(** The series 1, 2, 0, 3 with alpha = beta = 1: the level of the third step
    is 0, and that step divides the observation by it. *)
Definition data1203 : list (Observation float) := [obs 1; obs 2; obs 0; obs 3].

(** The same three observations in exact arithmetic. *)
Definition exact_obs (r : R) : Observation exact := {| month := None; value := Some r |}.
Definition exact123 : list (Observation exact) := exact_obs <$> [1; 2; 3]%R.

(** A function applied to the value a call returns. *)
Definition cmap {A B : Type} (f : A -> B) (c : Completion A) : Completion B :=
  x <~ c ;; Normal (f x).

(** The indices below [n] of the phase [i] of the period [m], in increasing
    order. *)
Definition phaseIndices (n m i : nat) : list nat :=
  filter (fun j => j mod m = i) (seq 0 n).

(** The average of the observations of the phase [i], summed from 0 in the
    order of the series, as a quotient of the number type. *)
Definition phaseAverage {num : Type} `{JsNum num} (series : list num) (m i : nat) : num :=
  let indices := phaseIndices (length series) m i in
  (fold_left nadd (get series <$> indices) (of_nat 0) / of_nat (length indices))%js.

(** The same observations under other labels. *)
Definition obs_labelled (l : string) (x : float) : Observation float :=
  {| month := Some l; value := x |}.

(** * Lemmas *)

(** ** Shape of the run, for every number type *)

Section Structure.
Context {num : Type} `{JsNum num}.
Implicit Types (data : list (Observation num)) (st : State num).
Implicit Types (series table : list num) (alpha beta gamma : num).

(** The inner loop of the initialisation ends when its step is positive. *)
Lemma phaseLoop_normal series m fuel j sum count :
  0 < m -> length series - j < fuel ->
  exists r, phaseLoop series m fuel j sum count = Normal r.
Proof.
  intros Hm. revert j sum count.
  induction fuel as [|fuel IH]; intros j sum count Hf; [lia|].
  cbn [phaseLoop]. destruct (j <? length series) eqn:Hj.
  - apply Nat.ltb_lt in Hj. apply IH. lia.
  - eauto.
Qed.

(** More fuel than needed changes nothing. *)
Lemma phaseLoop_fuel series m fuel fuel' j sum count r :
  phaseLoop series m fuel j sum count = Normal r -> fuel <= fuel' ->
  phaseLoop series m fuel' j sum count = Normal r.
Proof.
  revert fuel' j sum count.
  induction fuel as [|fuel IH]; intros fuel' j sum count Hr Hle; [discriminate|].
  destruct fuel' as [|fuel']; [lia|].
  cbn [phaseLoop] in *. destruct (j <? length series); [|exact Hr].
  apply IH; [exact Hr|lia].
Qed.

(** The outer loop of the initialisation, run over the phases below [k]:
    it ends, keeps the length of the table, and every entry it has written
    satisfies whatever every phase average satisfies. *)
Lemma rawSeasonals_prefix (P : num -> Prop) series m k l0 :
  0 < m -> k <= length l0 ->
  (forall i r, i < k ->
     phaseLoop series m (S (length series)) i (of_nat 0) 0 = Normal r ->
     P (fst r / of_nat (snd r))%js) ->
  exists l, fold_left (phaseStep series m) (seq 0 k) (Normal l0) = Normal l
            /\ length l = length l0 /\ Forall P (take k l).
Proof.
  intros Hm. induction k as [|k IH]; intros Hk HP.
  - exists l0. cbn. rewrite take_0. auto.
  - destruct IH as (l & Hl & Hlen & HF); [lia|intros i r Hi Hr; apply (HP i r); [lia|done]|].
    destruct (phaseLoop_normal series m (S (length series)) k (of_nat 0) 0)
      as [r Hr]; [done|lia|].
    exists (<[k := (fst r / of_nat (snd r))%js]> l).
    rewrite seq_S, fold_left_app, Hl. cbn [fold_left Nat.add].
    unfold phaseStep. cbn [cbind]. rewrite Hr. cbn [cbind].
    split; [done|]. rewrite length_insert. split; [done|].
    rewrite (take_S_r _ _ (fst r / of_nat (snd r))%js).
    + rewrite take_insert_ge by lia. apply Forall_app. split; [done|].
      constructor; [|constructor]. apply (HP k r); [lia|done].
    + apply list_lookup_insert_eq. lia.
Qed.

Lemma rawSeasonals_Forall (P : num -> Prop) series m :
  0 < m ->
  (forall i r, i < m ->
     phaseLoop series m (S (length series)) i (of_nat 0) 0 = Normal r ->
     P (fst r / of_nat (snd r))%js) ->
  exists l, rawSeasonals series m = Normal l /\ length l = m /\ Forall P l.
Proof.
  intros Hm HP.
  destruct (rawSeasonals_prefix P series m m (replicate m (of_nat 0)))
    as (l & Hl & Hlen & HF); [done|by rewrite length_replicate|done|].
  rewrite length_replicate in Hlen.
  exists l. split; [done|]. split; [done|].
  rewrite <- Hlen in HF. by rewrite firstn_all in HF.
Qed.

Lemma rawSeasonals_normal series m :
  0 < m -> exists l, rawSeasonals series m = Normal l /\ length l = m.
Proof.
  intros Hm. destruct (rawSeasonals_Forall (fun _ => True) series m) as (l & ? & ? & _); eauto.
Qed.

Lemma seasonalMean_normal l m :
  0 < length l -> exists mean, seasonalMean l m = Normal mean.
Proof. destruct l; cbn; [lia|eauto]. Qed.

(** A positive period: the initialisation ends with a table of that length. *)
Lemma initSeasonals_normal series m :
  0 < m ->
  exists raw mean,
    rawSeasonals series m = Normal raw /\ length raw = m
    /\ seasonalMean raw m = Normal mean
    /\ initSeasonals series m = Normal ((fun val => val / mean)%js <$> raw).
Proof.
  intros Hm. destruct (rawSeasonals_normal series m Hm) as (raw & Hraw & Hlen).
  destruct (seasonalMean_normal raw m) as [mean Hmean]; [lia|].
  exists raw, mean. unfold initSeasonals. rewrite Hraw. cbn [cbind].
  rewrite Hmean. done.
Qed.

Lemma initSeasonals_length series m table :
  0 < m -> initSeasonals series m = Normal table -> length table = m.
Proof.
  intros Hm Ht. destruct (initSeasonals_normal series m Hm) as (raw & mean & _ & Hlen & _ & Hi).
  rewrite Hi in Ht. injection Ht as <-. by rewrite length_fmap.
Qed.

(** The period zero: [reduce] is called on an empty array. *)
Lemma initSeasonals_zero series : initSeasonals series 0 = Throws TypeError.
Proof. reflexivity. Qed.

Lemma recurrenceLoop_app alpha beta gamma m l1 l2 i st :
  recurrenceLoop alpha beta gamma m (l1 ++ l2) i st
  = recurrenceLoop alpha beta gamma m l2 (i + length l1)
      (recurrenceLoop alpha beta gamma m l1 i st).
Proof.
  revert i st. induction l1 as [|d l1 IH]; intros i st; cbn [recurrenceLoop app length].
  - by rewrite Nat.add_0_r.
  - rewrite IH. by rewrite Nat.add_succ_comm.
Qed.

Lemma recurrenceLoop_seasonals_length alpha beta gamma m rest i st :
  length (seasonals (recurrenceLoop alpha beta gamma m rest i st)) = length (seasonals st).
Proof.
  revert i st. induction rest as [|d rest IH]; intros i st; cbn [recurrenceLoop]; [done|].
  rewrite IH. cbn. by rewrite length_insert.
Qed.

(** The recurrence only appends to [results]: one record per observation,
    with the observation's fields. *)
Lemma recurrenceLoop_results alpha beta gamma m rest i st :
  exists pts,
    results (recurrenceLoop alpha beta gamma m rest i st) = results st ++ pts
    /\ length pts = length rest
    /\ forall j d, rest !! j = Some d ->
         exists p, pts !! j = Some p /\ pt_month p = month d /\ pt_value p = Some (value d).
Proof.
  revert i st. induction rest as [|d rest IH]; intros i st; cbn [recurrenceLoop].
  - exists []. rewrite app_nil_r. split; [done|]. split; [done|].
    intros j d Hj. by rewrite lookup_nil in Hj.
  - destruct (IH (S i) (recurrenceStep alpha beta gamma m st i d)) as (pts & Hres & Hlen & Hpts).
    cbn [recurrenceStep results] in Hres. rewrite <- app_assoc in Hres.
    eexists. split; [exact Hres|]. split; [cbn; by rewrite Hlen|].
    intros [|j] d' Hj; cbn in Hj |- *.
    + injection Hj as <-. eexists. split; [done|]. done.
    + by apply Hpts.
Qed.

Lemma recurrence_0 data alpha beta gamma m st :
  recurrence data alpha beta gamma m 0 st = st.
Proof. unfold recurrence. by rewrite take_0. Qed.

Lemma recurrence_S data alpha beta gamma m k d st :
  data !! k = Some d ->
  recurrence data alpha beta gamma m (S k) st
  = recurrenceStep alpha beta gamma m (recurrence data alpha beta gamma m k st) k d.
Proof.
  intros Hd. unfold recurrence. rewrite (take_S_r _ _ d Hd), recurrenceLoop_app.
  rewrite length_take, Nat.min_l; [done|].
  apply lookup_lt_Some in Hd. lia.
Qed.

Lemma recurrence_all data alpha beta gamma m st :
  recurrence data alpha beta gamma m (length data) st
  = recurrenceLoop alpha beta gamma m data 0 st.
Proof. unfold recurrence. by rewrite firstn_all. Qed.

Lemma recurrence_results_length data alpha beta gamma m k st :
  k <= length data ->
  length (results (recurrence data alpha beta gamma m k st)) = length (results st) + k.
Proof.
  intros Hk. unfold recurrence.
  destruct (recurrenceLoop_results alpha beta gamma m (take k data) 0 st) as (pts & -> & Hlen & _).
  rewrite length_app, Hlen, length_take. lia.
Qed.

(** What the recurrence has pushed after [k] iterations stays where it is. *)
Lemma recurrence_results_prefix data alpha beta gamma m k st :
  exists pts,
    results (recurrenceLoop alpha beta gamma m data 0 st)
    = results (recurrence data alpha beta gamma m k st) ++ pts.
Proof.
  unfold recurrence.
  assert (recurrenceLoop alpha beta gamma m data 0 st
          = recurrenceLoop alpha beta gamma m (take k data ++ drop k data) 0 st) as ->
    by (by rewrite take_drop).
  rewrite recurrenceLoop_app.
  destruct (recurrenceLoop_results alpha beta gamma m (drop k data) (0 + length (take k data))
              (recurrenceLoop alpha beta gamma m (take k data) 0 st)) as (pts & Hres & _).
  eauto.
Qed.

(** The forecast loop leaves the trained state alone and appends one record
    per step. *)
Lemma forecasts_spec n m k st :
  level (forecasts n m k st) = level st
  /\ trend (forecasts n m k st) = trend st
  /\ seasonals (forecasts n m k st) = seasonals st
  /\ results (forecasts n m k st) = results st ++ (forecastPoint n m st <$> seq 0 k).
Proof.
  unfold forecasts. induction k as [|k (IHl & IHt & IHs & IHr)].
  - cbn. by rewrite app_nil_r.
  - rewrite seq_S, fold_left_app. cbn [fold_left Nat.add].
    unfold forecastStep at 1 3 5 7. cbn [level trend seasonals results].
    repeat split; [done..|].
    rewrite IHr, fmap_app, app_assoc. cbn [fmap list_fmap]. do 2 f_equal.
    unfold forecastPoint. by rewrite IHl, IHt, IHs.
Qed.

Lemma stateAfter_results_length data alpha beta gamma m table k :
  k <= length data ->
  length (results (stateAfter data alpha beta gamma m table k)) = k.
Proof. intros Hk. unfold stateAfter. by rewrite recurrence_results_length. Qed.

Lemma stateAfter_seasonals_length data alpha beta gamma m table k :
  length (seasonals (stateAfter data alpha beta gamma m table k)) = length table.
Proof. unfold stateAfter, recurrence. by rewrite recurrenceLoop_seasonals_length. Qed.

Lemma stateAfter_S data alpha beta gamma m table k d :
  data !! k = Some d ->
  stateAfter data alpha beta gamma m table (S k)
  = recurrenceStep alpha beta gamma m (stateAfter data alpha beta gamma m table k) k d.
Proof. apply recurrence_S. Qed.

(** The records of the first [k] iterations are a prefix of the final ones. *)
Lemma stateAfter_results_prefix data alpha beta gamma m table k :
  exists pts,
    results (stateAfter data alpha beta gamma m table (length data))
    = results (stateAfter data alpha beta gamma m table k) ++ pts.
Proof.
  unfold stateAfter. rewrite recurrence_all. apply recurrence_results_prefix.
Qed.

(** Whenever the initialisation returns, so does the call. *)
Lemma holtWinters_eq data alpha beta gamma m f table :
  initSeasonals (value <$> data) m = Normal table ->
  holtWinters data alpha beta gamma m f
  = Normal (results (stateAfter data alpha beta gamma m table (length data))
            ++ (forecastPoint (length data) m
                  (stateAfter data alpha beta gamma m table (length data))
                <$> seq 0 f)).
Proof.
  intros Hi. unfold holtWinters, stateAfter. rewrite Hi. cbn [cbind]. rewrite recurrence_all.
  rewrite length_fmap.
  by destruct (forecasts_spec (length data) m f
            (recurrenceLoop alpha beta gamma m data 0 (initState (value <$> data) m table)))
    as (_ & _ & _ & ->).
Qed.

(** A call with a positive period returns. *)
Lemma holtWinters_normal data alpha beta gamma m f :
  0 < m ->
  exists table,
    initSeasonals (value <$> data) m = Normal table /\ length table = m
    /\ holtWinters data alpha beta gamma m f
       = Normal (results (stateAfter data alpha beta gamma m table (length data))
                 ++ (forecastPoint (length data) m
                       (stateAfter data alpha beta gamma m table (length data))
                     <$> seq 0 f)).
Proof.
  intros Hm.
  destruct (initSeasonals_normal (value <$> data) m Hm) as (raw & mean & _ & Hlen & _ & Hi).
  eexists. split; [exact Hi|]. split; [by rewrite length_fmap|].
  by apply holtWinters_eq.
Qed.

(** The record of the observation [i], in terms of the state after its step. *)
Lemma fitted_lookup data alpha beta gamma m table i d :
  data !! i = Some d ->
  results (stateAfter data alpha beta gamma m table (length data)) !! i
  = Some {| pt_month := month d; pt_value := Some (value d);
            fitted := (level (stateAfter data alpha beta gamma m table (S i))
                       + trend (stateAfter data alpha beta gamma m table (S i)))
                      * get (seasonals (stateAfter data alpha beta gamma m table (S i)))
                          (i mod m) |}%js.
Proof.
  intros Hd. pose proof (lookup_lt_Some _ _ _ Hd) as Hi.
  destruct (stateAfter_results_prefix data alpha beta gamma m table (S i)) as [pts ->].
  rewrite (stateAfter_S _ _ _ _ _ _ _ _ Hd).
  unfold recurrenceStep. cbn [level trend seasonals results].
  rewrite <- app_assoc. apply list_lookup_middle.
  rewrite stateAfter_results_length; [done|lia].
Qed.

(** The record of the forecast step [j] (counted from 0). *)
Lemma forecast_lookup data alpha beta gamma m f table res j :
  initSeasonals (value <$> data) m = Normal table ->
  holtWinters data alpha beta gamma m f = Normal res ->
  j < f ->
  res !! (length data + j)
  = Some (forecastPoint (length data) m
            (stateAfter data alpha beta gamma m table (length data)) j).
Proof.
  intros Hi Hres Hj. rewrite (holtWinters_eq _ _ _ _ _ _ _ Hi) in Hres.
  injection Hres as <-.
  rewrite lookup_app_r; rewrite stateAfter_results_length by lia; [|lia].
  replace (length data + j - length data) with j by lia.
  rewrite list_lookup_fmap, lookup_seq_lt by done. done.
Qed.

Lemma observation_lookup data alpha beta gamma m f table res i :
  initSeasonals (value <$> data) m = Normal table ->
  holtWinters data alpha beta gamma m f = Normal res ->
  i < length data ->
  res !! i = results (stateAfter data alpha beta gamma m table (length data)) !! i.
Proof.
  intros Hi Hres Hlt. rewrite (holtWinters_eq _ _ _ _ _ _ _ Hi) in Hres.
  injection Hres as <-. rewrite lookup_app_l; [done|].
  rewrite stateAfter_results_length; lia.
Qed.

Lemma holtWinters_length data alpha beta gamma m f table res :
  initSeasonals (value <$> data) m = Normal table ->
  holtWinters data alpha beta gamma m f = Normal res ->
  length res = length data + f.
Proof.
  intros Hi Hres. rewrite (holtWinters_eq _ _ _ _ _ _ _ Hi) in Hres.
  injection Hres as <-.
  rewrite length_app, length_fmap, length_seq, stateAfter_results_length; lia.
Qed.

(** The fuel of the model is never used up: a call returns or throws. *)
Lemma holtWinters_fuel data alpha beta gamma m f :
  holtWinters data alpha beta gamma m f <> OutOfFuel.
Proof.
  destruct m as [|m]; [done|].
  destruct (holtWinters_normal data alpha beta gamma (S m) f) as (table & _ & _ & ->); [lia|].
  done.
Qed.

(** The component's call on its 36 sample points returns 48 records. *)
Lemma processedData_length data alpha beta gamma :
  length data = 36 ->
  exists res, processedData data alpha beta gamma = Normal res /\ length res = 48.
Proof.
  intros Hn. unfold processedData.
  destruct (holtWinters_normal data alpha beta gamma 12 12) as (table & Hi & _ & Hres); [lia|].
  eexists. split; [exact Hres|].
  rewrite (holtWinters_length _ _ _ _ _ _ _ _ Hi Hres). lia.
Qed.

End Structure.

(** ** Undefined results propagate *)

Section Poison.
Context {num : Type} `{NanAbsorbing num}.
Implicit Types (data : list (Observation num)) (st : State num).
Local Open Scope js_scope.

Lemma get_all_nan (l : list num) i :
  Forall (fun s => s = nan) l -> get l i = nan.
Proof.
  intros Hl. unfold get. destruct (l !! i) as [x|] eqn:Hx; [|done].
  cbn. by apply (Forall_lookup_1 _ _ _ _ Hl Hx).
Qed.

Lemma recurrenceStep_level_nan alpha beta gamma m st i d :
  poisoned m st -> level (recurrenceStep alpha beta gamma m st i d) = nan.
Proof.
  intros Hp. unfold recurrenceStep. cbn [level].
  destruct Hp as [Hl | [Ht | [_ Hs]]].
  - rewrite Hl. by rewrite nadd_nan_l, nmul_nan_r, nadd_nan_r.
  - rewrite Ht. by rewrite nadd_nan_r, nmul_nan_r, nadd_nan_r.
  - rewrite (get_all_nan _ _ Hs). by rewrite ndiv_nan_r, nmul_nan_r, nadd_nan_l.
Qed.

Lemma recurrenceStep_fitted_nan alpha beta gamma m st i d :
  poisoned m st ->
  exists p, results (recurrenceStep alpha beta gamma m st i d) = results st ++ [p]
            /\ fitted p = nan.
Proof.
  intros Hp. pose proof (recurrenceStep_level_nan alpha beta gamma m st i d Hp) as Hl.
  unfold recurrenceStep in *. cbn [level results] in *.
  eexists. split; [done|]. cbn [fitted]. by rewrite Hl, nadd_nan_l, nmul_nan_l.
Qed.

Lemma recurrenceLoop_nan alpha beta gamma m rest i st :
  poisoned m st -> Forall (fun p => fitted p = nan) (results st) ->
  poisoned m (recurrenceLoop alpha beta gamma m rest i st)
  /\ Forall (fun p => fitted p = nan) (results (recurrenceLoop alpha beta gamma m rest i st)).
Proof.
  revert i st. induction rest as [|d rest IH]; intros i st Hp Hr; cbn [recurrenceLoop]; [done|].
  apply IH.
  - left. by apply recurrenceStep_level_nan.
  - destruct (recurrenceStep_fitted_nan alpha beta gamma m st i d Hp) as (p & -> & Hf).
    apply Forall_app. split; [done|]. by constructor.
Qed.

Lemma forecastPoint_nan n m st j :
  (0 < m)%nat -> poisoned m st -> fitted (forecastPoint n m st j) = nan.
Proof.
  intros Hm Hp. unfold forecastPoint. cbn [fitted].
  destruct Hp as [Hl | [Ht | [Hlen Hs]]].
  - by rewrite Hl, nadd_nan_l, nmul_nan_l.
  - by rewrite Ht, nmul_nan_l, nadd_nan_r, nmul_nan_l.
  - by rewrite (get_all_nan _ _ Hs), nmul_nan_r.
Qed.

(** From a poisoned initial state every fitted value and every forecast of
    the call is NaN. *)
Lemma holtWinters_poisoned data alpha beta gamma m f table :
  (0 < m)%nat ->
  initSeasonals (value <$> data) m = Normal table ->
  poisoned m (initState (value <$> data) m table) ->
  exists res, holtWinters data alpha beta gamma m f = Normal res
              /\ length res = (length data + f)%nat
              /\ Forall (fun p => fitted p = nan) res.
Proof.
  intros Hm Hi Hp. eexists. split; [exact (holtWinters_eq _ _ _ _ _ _ _ Hi)|].
  split; [exact (holtWinters_length _ _ _ _ _ _ _ _ Hi (holtWinters_eq _ _ _ _ _ _ _ Hi))|].
  unfold stateAfter. rewrite recurrence_all.
  destruct (recurrenceLoop_nan alpha beta gamma m data 0
              (initState (value <$> data) m table) Hp) as [Hp' Hr']; [by constructor|].
  apply Forall_app. split; [done|].
  apply Forall_fmap, Forall_forall. intros j _. by apply forecastPoint_nan.
Qed.

(** A series no longer than the period: [series[seasonalPeriod]] is
    [undefined], so the trend starts as NaN. *)
Lemma initState_short_poisoned (series table : list num) m :
  (length series <= m)%nat -> poisoned m (initState series m table).
Proof.
  intros Hle. right. left. unfold initState. cbn [trend].
  unfold get at 1. rewrite lookup_ge_None_2 by done. cbn.
  by rewrite nsub_nan_l, ndiv_nan_l.
Qed.

End Poison.

(** ** Binary64 *)

Section Binary64.
Local Open Scope float_scope.

Lemma Prim2SF_nan x : Prim2SF x = S754_nan <-> x = PrimFloat.nan.
Proof.
  split.
  - intros Hx. apply Prim2SF_inj. rewrite Hx. reflexivity.
  - intros ->. reflexivity.
Qed.

(** The literals 0 and 1 of the code, and the default period. *)
Lemma of_nat_float :
  of_nat 0 = 0 /\ of_nat 1 = 1 /\ of_nat 12 = 12.
Proof. repeat split; vm_compute; reflexivity. Qed.

#[export] Instance float_NanAbsorbing : NanAbsorbing float.
Proof.
  split; intros x; cbn [nadd nsub nmul ndiv nan float_JsNum]; apply Prim2SF_inj;
    rewrite ?add_spec, ?sub_spec, ?mul_spec, ?div_spec;
    change (Prim2SF PrimFloat.nan) with S754_nan;
    unfold SF64add, SFadd, SF64sub, SFsub, SF64mul, SFmul, SF64div, SFdiv;
    by destruct (Prim2SF x).
Qed.

Lemma is_zero_Prim2SF x :
  PrimFloat.is_zero x = true -> exists s, Prim2SF x = S754_zero s.
Proof.
  unfold PrimFloat.is_zero. rewrite FloatAxioms.eqb_spec.
  change (Prim2SF zero) with (S754_zero false). unfold SFeqb, SFcompare.
  destruct (Prim2SF x) as [s|s| |s mx ex]; try done; [by eauto|by destruct s..].
Qed.

Lemma is_zero_zero_or_nan x : PrimFloat.is_zero x = true -> zero_or_nan x.
Proof. intros [s Hs]%is_zero_Prim2SF. unfold zero_or_nan. by rewrite Hs. Qed.

Lemma zero_or_nan_nan : zero_or_nan PrimFloat.nan.
Proof. exact I. Qed.

Lemma zero_or_nan_0 : zero_or_nan (of_nat 0).
Proof. vm_compute. exact I. Qed.

Lemma zero_or_nan_add x y : zero_or_nan x -> zero_or_nan y -> zero_or_nan (x + y).
Proof.
  unfold zero_or_nan. rewrite add_spec. unfold SF64add, SFadd.
  destruct (Prim2SF x) as [[]|?| |? ? ?], (Prim2SF y) as [[]|?| |? ? ?]; done.
Qed.

Lemma zero_or_nan_div x y : zero_or_nan x -> zero_or_nan (x / y).
Proof.
  unfold zero_or_nan. rewrite div_spec. unfold SF64div, SFdiv.
  destruct (Prim2SF x) as [?|?| |? ? ?], (Prim2SF y) as [?|?| |? ? ?]; done.
Qed.

(** Zero by zero is NaN. *)
Lemma zero_or_nan_div_nan x y : zero_or_nan x -> zero_or_nan y -> x / y = PrimFloat.nan.
Proof.
  unfold zero_or_nan. intros Hx Hy. apply Prim2SF_inj. rewrite div_spec.
  unfold SF64div, SFdiv. change (Prim2SF PrimFloat.nan) with S754_nan.
  destruct (Prim2SF x) as [?|?| |? ? ?], (Prim2SF y) as [?|?| |? ? ?]; done.
Qed.

(** A quotient by a zero of either sign is NaN or an infinity. *)
Lemma div_by_zero_not_finite x y :
  PrimFloat.is_zero y = true -> PrimFloat.is_finite (x / y) = false.
Proof.
  intros [sy Hy]%is_zero_Prim2SF.
  unfold PrimFloat.is_finite, PrimFloat.is_nan, PrimFloat.is_infinity.
  rewrite !FloatAxioms.eqb_spec, abs_spec, div_spec, Hy.
  change (Prim2SF infinity) with (S754_infinity false).
  unfold SF64div, SFdiv.
  destruct (Prim2SF x) as [sx|sx| |sx mx ex]; cbn; try done.
  all: by destruct sx, sy.
Qed.

Lemma get_zero_or_nan (series : list float) j :
  Forall zero_or_nan series -> zero_or_nan (get series j).
Proof.
  intros Hs. unfold get. destruct (series !! j) as [x|] eqn:Hx; [|exact I].
  cbn. exact (Forall_lookup_1 _ _ _ _ Hs Hx).
Qed.

Lemma phaseLoop_zero_or_nan (series : list float) m fuel j sum count r :
  Forall zero_or_nan series -> zero_or_nan sum ->
  phaseLoop series m fuel j sum count = Normal r -> zero_or_nan (fst r).
Proof.
  intros Hs. revert j sum count.
  induction fuel as [|fuel IH]; intros j sum count Hsum Hr; [done|].
  cbn [phaseLoop] in Hr. destruct (j <? length series)%nat.
  - eapply IH; [|exact Hr]. apply zero_or_nan_add; [done|by apply get_zero_or_nan].
  - by injection Hr as <-.
Qed.

Lemma fold_add_zero_or_nan (l : list float) x :
  Forall zero_or_nan l -> zero_or_nan x -> zero_or_nan (fold_left nadd l x).
Proof.
  intros Hl. revert x. induction Hl as [|y l Hy _ IH]; intros x Hx; cbn [fold_left]; [done|].
  apply IH. by apply zero_or_nan_add.
Qed.

(** An all-zero series: every phase average is 0 or NaN, so is their mean, and
    the normalised table is NaN throughout. *)
Lemma initSeasonals_all_zero (series : list float) m :
  (0 < m)%nat -> Forall zero_or_nan series ->
  exists table, initSeasonals series m = Normal table
                /\ length table = m /\ Forall (fun s => s = nan) table.
Proof.
  intros Hm Hs.
  destruct (rawSeasonals_Forall zero_or_nan series m Hm) as (raw & Hraw & Hlen & Hzn).
  { intros i r _ Hr. apply zero_or_nan_div.
    exact (phaseLoop_zero_or_nan _ _ _ _ _ _ _ Hs zero_or_nan_0 Hr). }
  unfold initSeasonals. rewrite Hraw. cbn [cbind].
  destruct raw as [|x raw]; [cbn in Hlen; lia|].
  cbn [seasonalMean reduce_add cbind].
  eexists. split; [done|]. split; [by rewrite length_fmap|].
  apply Forall_fmap. eapply Forall_impl; [exact Hzn|].
  intros v Hv. cbn. apply zero_or_nan_div_nan; [done|].
  apply zero_or_nan_div. inversion Hzn; subst. by apply fold_add_zero_or_nan.
Qed.

End Binary64.

(** ** Exact arithmetic *)

Section Exact.
Local Open Scope R_scope.
Implicit Types (rs raw table : list R) (data : list (Observation exact)).

Lemma exact_add a b : (Some a + Some b)%js = Some (a + b).
Proof. reflexivity. Qed.

Lemma exact_sub a b : (Some a - Some b)%js = Some (a - b).
Proof. reflexivity. Qed.

Lemma exact_mul a b : (Some a * Some b)%js = Some (a * b).
Proof. reflexivity. Qed.

Lemma exact_div_Some a b : b <> 0 -> (Some a / Some b)%js = Some (a / b).
Proof.
  intros Hb. cbn [ndiv exact_JsNum exact_div]. by destruct (Req_dec_T b 0).
Qed.

Lemma exact_of_nat n : @of_nat exact _ n = Some (INR n).
Proof. reflexivity. Qed.

Lemma INR_pos_neq_0 n : (0 < n)%nat -> INR n <> 0.
Proof. intros Hn. apply not_0_INR. lia. Qed.

#[export] Instance exact_NanAbsorbing : NanAbsorbing exact.
Proof. split; intros [x|]; reflexivity. Qed.

Lemma get_exact rs i r : rs !! i = Some r -> get (Some <$> rs) i = Some r.
Proof. intros Hr. unfold get. by rewrite list_lookup_fmap, Hr. Qed.

(** The inner loop of the initialisation on defined values: the sum stays
    defined, and [count] is positive once the phase holds an observation. *)
Lemma phaseLoop_exact rs m fuel j s c r :
  phaseLoop (Some <$> rs) m fuel j (Some s) c = Normal r ->
  (exists s', fst r = Some s') /\ (c <= snd r)%nat
  /\ ((j < length rs)%nat -> (c < snd r)%nat).
Proof.
  revert j s c. induction fuel as [|fuel IH]; intros j s c Hr; [done|].
  cbn [phaseLoop] in Hr. rewrite length_fmap in Hr.
  destruct (j <? length rs)%nat eqn:Hj.
  - apply Nat.ltb_lt in Hj. destruct (lookup_lt_is_Some_2 rs j Hj) as [x Hx].
    rewrite (get_exact _ _ _ Hx), exact_add in Hr.
    destruct (IH _ _ _ Hr) as (Hs & Hc & _). split; [done|]. split; lia.
  - apply Nat.ltb_ge in Hj. injection Hr as <-. cbn. split; [by eauto|]. split; lia.
Qed.

Lemma Forall_Some_fmap (l : list exact) :
  Forall (fun x => exists r, x = Some r) l -> exists rs, l = Some <$> rs.
Proof.
  induction 1 as [|x l [r ->] _ [rs ->]]; [by exists []|]. by exists (r :: rs).
Qed.

(** With an observation in every phase the phase averages are defined. *)
Lemma rawSeasonals_exact rs m :
  (0 < m)%nat -> (m <= length rs)%nat ->
  exists raw, rawSeasonals (Some <$> rs) m = Normal (Some <$> raw) /\ length raw = m.
Proof.
  intros Hm Hle.
  destruct (rawSeasonals_Forall (fun x => exists r, x = Some r) (Some <$> rs) m Hm)
    as (l & Hl & Hlen & HF).
  { intros i [sum count] Hi Hr. apply phaseLoop_exact in Hr as ([s ->] & _ & Hc).
    cbn [fst snd] in *. rewrite exact_of_nat, exact_div_Some; [by eauto|].
    apply INR_pos_neq_0. cbn in Hc. lia. }
  destruct (Forall_Some_fmap l HF) as [raw ->].
  exists raw. split; [done|]. by rewrite length_fmap in Hlen.
Qed.

Lemma fold_left_exact_add rest x :
  fold_left nadd (Some <$> rest) (Some x) = Some (x + Rsum rest).
Proof.
  revert x. induction rest as [|y rest IH]; intros x; cbn [fmap list_fmap fold_left Rsum foldr].
  - f_equal. lra.
  - rewrite exact_add, IH. f_equal. unfold Rsum. lra.
Qed.

(** Line 23 in exact arithmetic: the sum of the table over the period. *)
Lemma seasonalMean_exact l m :
  (0 < m)%nat -> (0 < length l)%nat ->
  seasonalMean (Some <$> l) m = Normal (Some (Rsum l / INR m)).
Proof.
  intros Hm Hl. destruct l as [|x rest]; [cbn in Hl; lia|].
  unfold seasonalMean. cbn [fmap list_fmap reduce_add cbind].
  rewrite fold_left_exact_add, exact_of_nat, exact_div_Some by (by apply INR_pos_neq_0).
  done.
Qed.

Lemma Rsum_div l c : Rsum ((fun r => r / c) <$> l) = Rsum l / c.
Proof.
  induction l as [|x l IH]; cbn [fmap list_fmap Rsum foldr].
  - unfold Rdiv. lra.
  - fold (Rsum ((fun r => r / c) <$> l)). rewrite IH. fold (Rsum l). unfold Rdiv. lra.
Qed.

(** The normalisation in exact arithmetic, the mean being nonzero. *)
Lemma initSeasonals_exact rs m raw mu :
  rawSeasonals (Some <$> rs) m = Normal (Some <$> raw) ->
  seasonalMean (Some <$> raw) m = Normal (Some mu) ->
  mu <> 0 ->
  initSeasonals (Some <$> rs) m = Normal (Some <$> ((fun r => r / mu) <$> raw)).
Proof.
  intros Hraw Hmean Hmu. unfold initSeasonals. rewrite Hraw. cbn [cbind].
  rewrite Hmean. cbn [cbind]. f_equal. rewrite <- !list_fmap_compose.
  apply list_fmap_ext. intros i r _. unfold compose. by rewrite exact_div_Some.
Qed.

End Exact.

(** ** The recurrence in exact arithmetic *)

Section ExactRecurrence.
Local Open Scope R_scope.
Implicit Types (data : list (Observation exact)) (st : State exact).

(** One step on defined values, no divisor being zero: the equations of the
    recurrence on the reals. *)
Lemma exact_step (a b g : R) m st k d v s L T tbl :
  value d = Some v -> level st = Some L -> trend st = Some T ->
  seasonals st = Some <$> tbl ->
  tbl !! (k mod m)%nat = Some s -> s <> 0 ->
  a * (v / s) + (1 - a) * (L + T) <> 0 ->
  let L' := a * (v / s) + (1 - a) * (L + T) in
  let T' := b * (L' - L) + (1 - b) * T in
  let s' := g * (v / L') + (1 - g) * s in
  let st' := recurrenceStep (Some a) (Some b) (Some g) m st k d in
  level st' = Some L' /\ trend st' = Some T'
  /\ seasonals st' = Some <$> <[(k mod m)%nat := s']> tbl
  /\ results st'
     = results st ++ [{| pt_month := month d; pt_value := Some (Some v);
                         fitted := Some ((L' + T') * s') |}].
Proof.
  intros Hv HL HT Hs Htbl Hs0 HL0 L' T' s' st'.
  assert (HL' : level st' = Some L').
  { unfold st', recurrenceStep. cbn [level]. rewrite Hv, HL, HT, Hs, (get_exact _ _ _ Htbl).
    rewrite exact_of_nat. change (INR 1) with 1.
    by rewrite exact_div_Some, exact_add, exact_sub, !exact_mul, exact_add. }
  assert (HT' : trend st' = Some T').
  { unfold st', recurrenceStep in *. cbn [level trend] in *. rewrite HL'. rewrite HL, HT.
    rewrite exact_of_nat. change (INR 1) with 1.
    by rewrite !exact_sub, !exact_mul, exact_add. }
  assert (Hs' : seasonals st' = Some <$> <[(k mod m)%nat := s']> tbl).
  { unfold st', recurrenceStep in *. cbn [level trend seasonals] in *. rewrite HL'.
    rewrite Hv, Hs, (get_exact _ _ _ Htbl). rewrite exact_of_nat. change (INR 1) with 1.
    rewrite exact_div_Some by done.
    rewrite exact_sub, !exact_mul, exact_add. by rewrite list_fmap_insert. }
  split; [done|]. split; [done|]. split; [done|].
  unfold st', recurrenceStep in *. cbn [level trend seasonals results] in *.
  rewrite Hs', HT', HL', Hv. do 3 f_equal.
  rewrite (get_exact _ _ s'); [by rewrite exact_add, exact_mul|].
  apply list_lookup_insert_eq. by apply lookup_lt_Some in Htbl.
Qed.

Lemma data_lookup_exact data rs k :
  value <$> data = Some <$> rs -> (k < length rs)%nat ->
  exists d v, data !! k = Some d /\ rs !! k = Some v /\ value d = Some v.
Proof.
  intros Hdata Hk. destruct (lookup_lt_is_Some_2 rs k Hk) as [v Hv].
  assert (Hk' : (value <$> data) !! k = Some (Some v)) by (by rewrite Hdata, list_lookup_fmap, Hv).
  rewrite list_lookup_fmap in Hk'. destruct (data !! k) as [d|]; [|done].
  exists d, v. cbn in Hk'. split; [done|]. split; [done|]. congruence.
Qed.

Lemma initState_exact data rs m table x0 xm :
  value <$> data = Some <$> rs -> (0 < m)%nat ->
  rs !! 0%nat = Some x0 -> rs !! m = Some xm ->
  level (initState (value <$> data) m table) = Some x0
  /\ trend (initState (value <$> data) m table) = Some ((xm - x0) / INR m).
Proof.
  intros -> Hm H0 Hxm. unfold initState. cbn [level trend].
  rewrite (get_exact _ _ _ H0), (get_exact _ _ _ Hxm). split; [done|].
  by rewrite exact_sub, exact_of_nat, exact_div_Some by (by apply INR_pos_neq_0).
Qed.

(** With alpha = beta = gamma = 0 the trend and the table stay as they are
    and every step adds the trend to the level. *)
Lemma zero_coefficients_state data rs table m x0 xm k :
  value <$> data = Some <$> rs -> (0 < m)%nat ->
  rs !! 0%nat = Some x0 -> rs !! m = Some xm ->
  length table = m -> Forall (fun s => s <> 0) table ->
  (forall j, (1 <= j <= length rs)%nat -> x0 + INR j * ((xm - x0) / INR m) <> 0) ->
  (k <= length rs)%nat ->
  let st := stateAfter data (Some 0) (Some 0) (Some 0) m (Some <$> table) k in
  level st = Some (x0 + INR k * ((xm - x0) / INR m))
  /\ trend st = Some ((xm - x0) / INR m)
  /\ seasonals st = Some <$> table.
Proof.
  intros Hdata Hm H0 Hxm Hlen Hnz Hlev. induction k as [|k IH]; intros Hk st.
  - unfold st, stateAfter. rewrite recurrence_0.
    destruct (initState_exact data rs m (Some <$> table) x0 xm Hdata Hm H0 Hxm) as [-> ->].
    split; [|done]. f_equal. cbn [INR]. lra.
  - destruct IH as (IHl & IHt & IHs); [lia|].
    destruct (data_lookup_exact data rs k Hdata) as (d & v & Hd & _ & Hv); [lia|].
    assert (Hp : (k mod m < length table)%nat)
      by (rewrite Hlen; apply Nat.mod_upper_bound; lia).
    destruct (lookup_lt_is_Some_2 table _ Hp) as [s Hs].
    pose proof (Forall_lookup_1 _ _ _ _ Hnz Hs) as Hs0. cbn in Hs0.
    assert (HL : 0 * (v / s) + (1 - 0) * (x0 + INR k * ((xm - x0) / INR m) + (xm - x0) / INR m)
                 = x0 + INR (S k) * ((xm - x0) / INR m)) by (rewrite S_INR; lra).
    unfold st. rewrite (stateAfter_S _ _ _ _ _ _ _ _ Hd).
    destruct (exact_step 0 0 0 m _ k d v s _ _ table Hv IHl IHt IHs Hs Hs0)
      as (Hl' & Ht' & Hs' & _).
    { rewrite HL. apply Hlev. lia. }
    rewrite Hl', Ht', Hs'. split; [by rewrite HL|]. split; [f_equal; lra|].
    f_equal. apply list_insert_id. rewrite Hs. f_equal. lra.
Qed.

(** With alpha = beta = 1 and gamma = 0, on a line and a table of ones, the
    level is the last observation and the trend the last difference. *)
Lemma linear_state data rs m a b k :
  value <$> data = Some <$> rs -> (0 < m)%nat -> (m < length rs)%nat ->
  (forall i, (i < length rs)%nat -> rs !! i = Some (a + b * INR i)) ->
  (forall i, (i < length rs)%nat -> a + b * INR i <> 0) ->
  (k <= length rs)%nat ->
  let st := stateAfter data (Some 1) (Some 1) (Some 0) m (Some <$> replicate m 1) k in
  level st = Some (a + b * INR (k - 1))
  /\ trend st = Some (if (k =? 1)%nat then 0 else b)
  /\ seasonals st = Some <$> replicate m 1.
Proof.
  intros Hdata Hm Hmn Hline Hnz. induction k as [|k IH]; intros Hk st.
  - unfold st, stateAfter. rewrite recurrence_0.
    destruct (initState_exact data rs m (Some <$> replicate m 1) _ _ Hdata Hm
                (Hline 0%nat ltac:(lia)) (Hline m Hmn)) as [-> ->].
    split; [done|]. split; [|done]. cbn [Nat.eqb INR]. f_equal.
    pose proof (INR_pos_neq_0 m Hm). by field.
  - destruct IH as (IHl & IHt & IHs); [lia|].
    destruct (data_lookup_exact data rs k Hdata) as (d & v & Hd & Hrk & Hv); [lia|].
    rewrite Hline in Hrk by lia. injection Hrk as <-.
    assert (Hs : replicate m 1 !! (k mod m)%nat = Some 1)
      by (apply lookup_replicate_2, Nat.mod_upper_bound; lia).
    set (L := a + b * INR (k - 1)) in *.
    set (T := if (k =? 1)%nat then 0 else b) in *.
    assert (HL : 1 * ((a + b * INR k) / 1) + (1 - 1) * (L + T) = a + b * INR k) by lra.
    unfold st. rewrite (stateAfter_S _ _ _ _ _ _ _ _ Hd).
    destruct (exact_step 1 1 0 m _ k d _ 1 L T (replicate m 1) Hv IHl IHt IHs Hs)
      as (Hl' & Ht' & Hs' & _); [lra| |].
    { rewrite HL. apply Hnz. lia. }
    rewrite Hl', Ht', Hs'. replace (S k - 1)%nat with k by lia.
    split; [by rewrite HL|]. split.
    + f_equal. rewrite HL. unfold L. destruct k as [|k]; cbn [Nat.eqb Nat.sub].
      * lra.
      * rewrite Nat.sub_0_r, S_INR. destruct k; lra.
    + f_equal. apply list_insert_id. rewrite Hs. f_equal. lra.
Qed.

End ExactRecurrence.

(** ** A run in exact arithmetic *)

Section ExactExamples.
Local Open Scope R_scope.

(** Evaluates a run in exact arithmetic: every division met is by a nonzero
    constant. *)
Ltac exact_eval :=
  cbn;
  repeat (match goal with
          | |- context [Req_dec_T ?b 0] =>
              destruct (Req_dec_T b 0) as [?E|?E]; [exfalso; lra|]
          end; cbn).

Lemma initSeasonals_exact_123 :
  initSeasonals (Some <$> [1; 2; 3]) 1 = Normal (Some <$> [1]).
Proof. exact_eval. do 3 f_equal. lra. Qed.

End ExactExamples.

(** * The claims *)

(** ** C1: the step of the recurrence *)

Section RecurrenceStep.
Local Open Scope js_scope.

(** C1. At every step [i] of the recurrence, with [value] the observation
    [data[i].value] and [s] the seasonal slot [i mod m] before the step: the new
    level is [alpha*(value/s) + (1-alpha)*(level+trend)], the new trend is
    [beta*(level'-level) + (1-beta)*trend] (it reads the new level), the slot
    becomes [gamma*(value/level') + (1-gamma)*s] (it reads the new level and
    the old slot) and no other slot changes, and the fitted value of the
    record [i] of the output is [(level'+trend') * seasonals'[i mod m]] with
    the slot after the update. *)
Theorem C1_recurrence_step {num : Type} `{JsNum num}
    (data : list (Observation num)) (alpha beta gamma : num) (m f i : nat)
    (d : Observation num) :
  (0 < m)%nat -> data !! i = Some d ->
  exists table res,
    initSeasonals (value <$> data) m = Normal table
    /\ holtWinters data alpha beta gamma m f = Normal res
    /\ let st := stateAfter data alpha beta gamma m table i in
       let st' := stateAfter data alpha beta gamma m table (S i) in
       let s := get (seasonals st) (i mod m) in
       level st' = alpha * (value d / s) + (of_nat 1 - alpha) * (level st + trend st)
       /\ trend st' = beta * (level st' - level st) + (of_nat 1 - beta) * trend st
       /\ seasonals st'
          = <[i mod m := gamma * (value d / level st') + (of_nat 1 - gamma) * s]>
              (seasonals st)
       /\ get (seasonals st') (i mod m)
          = gamma * (value d / level st') + (of_nat 1 - gamma) * s
       /\ fitted <$> res !! i
          = Some ((level st' + trend st') * get (seasonals st') (i mod m)).
Proof.
  intros Hm Hd.
  destruct (holtWinters_normal data alpha beta gamma m f Hm) as (table & Hi & Hlen & Hres).
  exists table. eexists. split; [exact Hi|]. split; [exact Hres|].
  intros st st' s.
  assert (Hst' : st' = recurrenceStep alpha beta gamma m st i d)
    by (apply stateAfter_S; exact Hd).
  assert (Hslot : (i mod m < length (seasonals st))%nat).
  { unfold st. rewrite stateAfter_seasonals_length, Hlen. by apply Nat.mod_upper_bound, Nat.neq_0_lt_0. }
  repeat split.
  - by rewrite Hst'.
  - by rewrite Hst'.
  - by rewrite Hst'.
  - rewrite Hst'. unfold recurrenceStep, get. cbn [level trend seasonals].
    by rewrite list_lookup_insert_eq.
  - rewrite lookup_app_l.
    + by rewrite (fitted_lookup _ _ _ _ _ _ _ _ Hd).
    + rewrite stateAfter_results_length by lia. by apply lookup_lt_Some in Hd.
Qed.

Local Open Scope float_scope.

(** C1 at the second step of the series 1, 2, 3 with period 2. *)
Lemma C1_recurrence_step_witness :
  (0 < 2)%nat /\ data123 !! 1%nat = Some (obs 2)
  /\ exists table res,
       initSeasonals (value <$> data123) 2 = Normal table
       /\ holtWinters data123 0.5 0.25 0.75 2 1 = Normal res
       /\ let st := stateAfter data123 0.5 0.25 0.75 2 table 1 in
          let st' := stateAfter data123 0.5 0.25 0.75 2 table 2 in
          let s := get (seasonals st) (1 mod 2) in
          level st' = (0.5 * (value (obs 2) / s) + (of_nat 1 - 0.5) * (level st + trend st))%js
          /\ trend st' = (0.25 * (level st' - level st) + (of_nat 1 - 0.25) * trend st)%js
          /\ seasonals st'
             = <[(1 mod 2)%nat := (0.75 * (value (obs 2) / level st') + (of_nat 1 - 0.75) * s)%js]>
                 (seasonals st)
          /\ get (seasonals st') (1 mod 2)
             = (0.75 * (value (obs 2) / level st') + (of_nat 1 - 0.75) * s)%js
          /\ fitted <$> res !! 1%nat
             = Some ((level st' + trend st') * get (seasonals st') (1 mod 2))%js.
Proof.
  split; [lia|]. split; [reflexivity|].
  apply (C1_recurrence_step data123 0.5 0.25 0.75 2 1 1 (obs 2)); [lia|reflexivity].
Defined.

End RecurrenceStep.

(** ** C2: the forecast projection *)

Section ForecastProjection.
Local Open Scope js_scope.

(** C2. For every [h] from 1 to the forecast horizon, the [h]-th forecast is
    [(level + trend*h) * seasonals[(n+h-1) mod m]], where level, trend and the
    seasonal table are the state after all [n] steps of the recurrence. *)
Theorem C2_forecast_projection {num : Type} `{JsNum num}
    (data : list (Observation num)) (alpha beta gamma : num) (m f h : nat) :
  (0 < m)%nat -> (1 <= h)%nat -> (h <= f)%nat ->
  exists table res,
    initSeasonals (value <$> data) m = Normal table
    /\ holtWinters data alpha beta gamma m f = Normal res
    /\ let n := length data in
       let st := stateAfter data alpha beta gamma m table n in
       fitted <$> res !! (n + h - 1)%nat
       = Some ((level st + trend st * of_nat h) * get (seasonals st) ((n + h - 1) mod m)).
Proof.
  intros Hm H1 Hf.
  destruct (holtWinters_normal data alpha beta gamma m f Hm) as (table & Hi & Hlen & Hres).
  exists table. eexists. split; [exact Hi|]. split; [exact Hres|].
  intros n st.
  replace (n + h - 1)%nat with (n + (h - 1))%nat by lia.
  rewrite (forecast_lookup _ _ _ _ _ _ _ _ _ Hi Hres) by lia.
  cbn [fmap option_fmap option_map forecastPoint fitted].
  by replace (h - 1 + 1)%nat with h by lia.
Qed.

Local Open Scope float_scope.

(** C2 at the third of four forecasts of the series 1, 2, 3 with period 2. *)
Lemma C2_forecast_projection_witness :
  (0 < 2)%nat /\ (1 <= 3)%nat /\ (3 <= 4)%nat
  /\ exists table res,
       initSeasonals (value <$> data123) 2 = Normal table
       /\ holtWinters data123 0.5 0.25 0.75 2 4 = Normal res
       /\ let n := length data123 in
          let st := stateAfter data123 0.5 0.25 0.75 2 table n in
          fitted <$> res !! (n + 3 - 1)%nat
          = Some ((level st + trend st * of_nat 3) * get (seasonals st) ((n + 3 - 1) mod 2))%js.
Proof.
  split; [lia|]. split; [lia|]. split; [lia|].
  apply (C2_forecast_projection data123 0.5 0.25 0.75 2 4 3); lia.
Defined.

End ForecastProjection.

(** ** C3: the shape of the output *)

Section OutputShape.
Local Open Scope js_scope.

(** C3. For a series of length [n] and a horizon [h] the output has exactly
    [n + h] records; each of the first [n] carries the fields of its
    observation, the observed value included, and each of the last [h] has
    no observed value. *)
Theorem C3_output_shape {num : Type} `{JsNum num}
    (data : list (Observation num)) (alpha beta gamma : num) (m f : nat) :
  (0 < m)%nat ->
  exists res,
    holtWinters data alpha beta gamma m f = Normal res
    /\ length res = (length data + f)%nat
    /\ (forall i d, data !! i = Some d ->
          exists p, res !! i = Some p
                    /\ pt_month p = month d /\ pt_value p = Some (value d))
    /\ (forall i, (length data <= i)%nat -> (i < length data + f)%nat ->
          exists p, res !! i = Some p /\ pt_value p = None).
Proof.
  intros Hm.
  destruct (holtWinters_normal data alpha beta gamma m f Hm) as (table & Hi & Hlen & Hres).
  eexists. split; [exact Hres|]. split; [exact (holtWinters_length _ _ _ _ _ _ _ _ Hi Hres)|].
  split.
  - intros i d Hd. pose proof (lookup_lt_Some _ _ _ Hd) as Hlt.
    rewrite (observation_lookup _ _ _ _ _ _ _ _ _ Hi Hres Hlt).
    rewrite (fitted_lookup _ _ _ _ _ _ _ _ Hd). eauto.
  - intros i Hge Hlt. replace i with (length data + (i - length data))%nat by lia.
    rewrite (forecast_lookup _ _ _ _ _ _ _ _ _ Hi Hres) by lia. eauto.
Qed.

Local Open Scope float_scope.

(** C3 on the series 1, 2, 3 with period 2 and horizon 4. *)
Lemma C3_output_shape_witness :
  (0 < 2)%nat
  /\ exists res,
       holtWinters data123 0.5 0.25 0.75 2 4 = Normal res
       /\ length res = (length data123 + 4)%nat
       /\ (forall i d, data123 !! i = Some d ->
             exists p, res !! i = Some p
                       /\ pt_month p = month d /\ pt_value p = Some (value d))
       /\ (forall i, (length data123 <= i)%nat -> (i < length data123 + 4)%nat ->
             exists p, res !! i = Some p /\ pt_value p = None).
Proof.
  split; [lia|]. apply (C3_output_shape data123 0.5 0.25 0.75 2 4). lia.
Defined.

End OutputShape.

(** ** C4: the normalisation invariant *)

Section Normalisation.
Local Open Scope R_scope.

(** C4, as stated, fails in binary64. The raw seasonal means 1e16, 3, -1e16
    have the nonzero mean 4/3 there (1 exactly), and the mean of the
    normalised table is 2/3; with the series 1.5e308, 1.5e308, 1 the sum of the
    raw means overflows and the mean of the normalised table is 0. *)
Lemma C4_counterexample :
  (rawSeasonals [1e16; 3; -1e16; 1e16]%float 3 = Normal [1e16; 3; -1e16]%float
   /\ exists mu table mean,
        seasonalMean [1e16; 3; -1e16]%float 3 = Normal mu
        /\ (1 <? mu)%float = true
        /\ initSeasonals [1e16; 3; -1e16; 1e16]%float 3 = Normal table
        /\ seasonalMean table 3 = Normal mean
        /\ (mean <? 0.75)%float = true)
  /\ (initSeasonals [1.5e308; 1.5e308; 1]%float 2 = Normal [0; 0]%float
      /\ seasonalMean [0; 0]%float 2 = Normal 0%float).
Proof.
  split.
  - split; [vm_compute; reflexivity|].
    do 3 eexists. repeat split; vm_compute; reflexivity.
  - split; vm_compute; reflexivity.
Qed.

(** C4, amended. In exact arithmetic, for a positive period and a series
    with an observation in every phase, the raw seasonal table and its mean
    are defined, and when that mean is not zero the mean of the normalised
    table is exactly 1. *)
Theorem C4_normalised_mean_is_one (rs : list R) (m : nat) :
  (0 < m)%nat -> (m <= length rs)%nat ->
  exists raw mu,
    rawSeasonals (Some <$> rs) m = Normal (Some <$> raw)
    /\ seasonalMean (Some <$> raw) m = Normal (Some mu)
    /\ (mu <> 0%R ->
        exists table,
          initSeasonals (Some <$> rs) m = Normal (Some <$> table)
          /\ seasonalMean (Some <$> table) m = Normal (Some 1%R)).
Proof.
  intros Hm Hle.
  destruct (rawSeasonals_exact rs m Hm Hle) as (raw & Hraw & Hlen).
  pose proof (seasonalMean_exact raw m Hm ltac:(lia)) as Hmean.
  exists raw, (Rsum raw / INR m)%R. split; [done|]. split; [done|].
  intros Hmu. eexists. split; [exact (initSeasonals_exact _ _ _ _ Hraw Hmean Hmu)|].
  rewrite seasonalMean_exact; [|done|rewrite length_fmap; lia].
  do 2 f_equal. rewrite Rsum_div.
  pose proof (INR_pos_neq_0 m Hm) as HINR.
  assert (Rsum raw <> 0%R) by (intros E; apply Hmu; rewrite E; unfold Rdiv; lra).
  by field.
Qed.

(** C4, amended, on the series 1, 2, 3 with period 2. *)
Lemma C4_normalised_mean_is_one_witness :
  (0 < 2)%nat /\ (2 <= length [1; 2; 3]%R)%nat
  /\ exists raw mu,
       rawSeasonals (Some <$> [1; 2; 3]%R) 2 = Normal (Some <$> raw)
       /\ seasonalMean (Some <$> raw) 2 = Normal (Some mu)
       /\ (mu <> 0%R ->
           exists table,
             initSeasonals (Some <$> [1; 2; 3]%R) 2 = Normal (Some <$> table)
             /\ seasonalMean (Some <$> table) 2 = Normal (Some 1%R)).
Proof.
  split; [lia|]. split; [cbn; lia|].
  apply (C4_normalised_mean_is_one [1; 2; 3]%R 2); cbn; lia.
Defined.

End Normalisation.

(** ** C5: the coefficient boundary *)

Section CoefficientBoundary.
Local Open Scope R_scope.

(** C5, as stated, fails. On the series 1, 2, 3 with period 1 and
    alpha = beta = gamma = 0 the seeds are level 1 and trend 1 and the table
    is [1]: after the first step the level is 2, not the seed, and the first
    fitted value is 3, not (1 + 1) * 1 = 2. *)
Lemma C5_counterexample :
  initSeasonals (value <$> data123) 1 = Normal [1%float]
  /\ level (initState (value <$> data123) 1 [1%float]) = 1%float
  /\ trend (initState (value <$> data123) 1 [1%float]) = 1%float
  /\ level (stateAfter data123 0%float 0%float 0%float 1 [1%float] 1) = 2%float
  /\ ((1 + 1) * get [1%float] 0)%float = 2%float
  /\ exists res, holtWinters data123 0%float 0%float 0%float 1 0 = Normal res
                 /\ fitted <$> res !! 0%nat = Some 3%float.
Proof.
  do 5 (split; [vm_compute; reflexivity|]).
  eexists. split; vm_compute; reflexivity.
Qed.

(** C5, amended. In exact arithmetic, with alpha = beta = gamma = 0, on a
    series longer than the period and with no division by zero (no zero in
    the normalised table, no zero level): the trend stays at its seed
    [(series[m] - series[0]) / m] and the seasonal table at its normalised
    initial state, the level grows by the trend at every step (after the
    step [i] it is [seedLevel + (i+1) * seedTrend]), and the fitted value of
    the step [i] is [(seedLevel + (i+2) * seedTrend) * seasonal[i mod m]]. *)
Theorem C5_zero_coefficients (data : list (Observation exact)) (rs table : list R)
    (m f : nat) (x0 xm : R) :
  value <$> data = Some <$> rs -> (0 < m)%nat ->
  rs !! 0%nat = Some x0 -> rs !! m = Some xm ->
  initSeasonals (Some <$> rs) m = Normal (Some <$> table) ->
  Forall (fun s => s <> 0) table ->
  let seedLevel := x0 in
  let seedTrend := (xm - x0) / INR m in
  (forall k, (1 <= k <= length rs)%nat -> seedLevel + INR k * seedTrend <> 0) ->
  exists res,
    holtWinters data (Some 0) (Some 0) (Some 0) m f = Normal res
    /\ forall i s, (i < length rs)%nat -> table !! (i mod m)%nat = Some s ->
         let st' := stateAfter data (Some 0) (Some 0) (Some 0) m (Some <$> table) (S i) in
         level st' = Some (seedLevel + INR (S i) * seedTrend)
         /\ trend st' = Some seedTrend
         /\ seasonals st' = Some <$> table
         /\ fitted <$> res !! i = Some (Some ((seedLevel + INR (i + 2) * seedTrend) * s)).
Proof.
  intros Hdata Hm H0 Hxm Hi Hnz seedLevel seedTrend Hlev.
  assert (Hlen : length table = m).
  { rewrite <- (length_fmap Some). by apply (initSeasonals_length (Some <$> rs)). }
  assert (Hn : length data = length rs).
  { rewrite <- (length_fmap value), Hdata. by rewrite length_fmap. }
  rewrite <- Hdata in Hi.
  eexists. split; [exact (holtWinters_eq _ _ _ _ _ _ _ Hi)|].
  intros i s Hlt Hs st'.
  destruct (zero_coefficients_state data rs table m x0 xm (S i) Hdata Hm H0 Hxm Hlen Hnz Hlev)
    as (Hl' & Ht' & Hs'); [lia|].
  fold st' in Hl', Ht', Hs'. split; [done|]. split; [done|]. split; [done|].
  destruct (data_lookup_exact data rs i Hdata Hlt) as (d & v & Hd & _ & Hv).
  rewrite lookup_app_l by (rewrite stateAfter_results_length; lia).
  rewrite (fitted_lookup _ _ _ _ _ _ _ _ Hd). fold st'.
  cbn [fmap option_fmap option_map fitted]. rewrite Hl', Ht', Hs', (get_exact _ _ _ Hs).
  rewrite exact_add, exact_mul. do 2 f_equal.
  unfold seedLevel, seedTrend. rewrite S_INR. replace (i + 2)%nat with (S (S i)) by lia.
  rewrite !S_INR. lra.
Qed.

(** C5, amended, on the series 1, 2, 3 with period 1: seed level 1, seed
    trend 1, table [1]. *)
Lemma C5_zero_coefficients_witness :
  value <$> exact123 = Some <$> [1; 2; 3]
  /\ initSeasonals (Some <$> [1; 2; 3]) 1 = Normal (Some <$> [1])
  /\ (forall k, (1 <= k <= 3)%nat -> 1 + INR k * ((2 - 1) / INR 1) <> 0)
  /\ exists res,
       holtWinters exact123 (Some 0) (Some 0) (Some 0) 1 2 = Normal res
       /\ forall i s, (i < 3)%nat -> [1] !! (i mod 1)%nat = Some s ->
            let st' := stateAfter exact123 (Some 0) (Some 0) (Some 0) 1 (Some <$> [1]) (S i) in
            level st' = Some (1 + INR (S i) * ((2 - 1) / INR 1))
            /\ trend st' = Some ((2 - 1) / INR 1)
            /\ seasonals st' = Some <$> [1]
            /\ fitted <$> res !! i = Some (Some ((1 + INR (i + 2) * ((2 - 1) / INR 1)) * s)).
Proof.
  assert (Hlev : forall k, (1 <= k <= 3)%nat -> 1 + INR k * ((2 - 1) / INR 1) <> 0).
  { intros k _. pose proof (pos_INR k). cbn [INR]. lra. }
  split; [reflexivity|]. split; [exact initSeasonals_exact_123|]. split; [exact Hlev|].
  apply (C5_zero_coefficients exact123 [1; 2; 3] [1] 1 2 1 2);
    [reflexivity|lia|reflexivity|reflexivity|exact initSeasonals_exact_123| |exact Hlev].
  constructor; [lra|constructor].
Defined.

End CoefficientBoundary.

(** ** C6: the linear series *)

Section LinearSeries.
Local Open Scope R_scope.

(** C6, as stated, fails. The series 1, 2, 3 is the line [1 + i]; with
    period 1 the seasonal table is [1]; with alpha = beta = 1 and gamma = 0
    the fitted values are 1, 3, 4: at the indices 1 and 2 they are the values
    of the line one step ahead, not 2 and 3. *)
Lemma C6_counterexample :
  initSeasonals (value <$> data123) 1 = Normal [1%float]
  /\ holtWinters data123 1%float 1%float 0%float 1 2
     = Normal
         [ {| pt_month := None; pt_value := Some 1%float; fitted := 1%float |};
           {| pt_month := None; pt_value := Some 2%float; fitted := 3%float |};
           {| pt_month := None; pt_value := Some 3%float; fitted := 4%float |};
           {| pt_month := Some "Forecast 1"; pt_value := None; fitted := 4%float |};
           {| pt_month := Some "Forecast 2"; pt_value := None; fitted := 5%float |} ].
Proof. split; vm_compute; reflexivity. Qed.

(** C6, amended. In exact arithmetic, on a series [value[i] = a + b*i] longer
    than the period whose seasonal table is all ones after the
    initialisation, with alpha = beta = 1 and gamma = 0 and no zero on the
    line: the first fitted value is [a]; the fitted value of every later step
    [i] is [a + b*(i+1)], the line one step ahead; and the [h]-th forecast
    is the value [a + b*(n+h-1)] of the line at its index. *)
Theorem C6_linear_series (data : list (Observation exact)) (rs : list R)
    (m f : nat) (a b : R) :
  value <$> data = Some <$> rs -> (0 < m)%nat -> (m < length rs)%nat ->
  (forall i, (i < length rs)%nat -> rs !! i = Some (a + b * INR i)) ->
  initSeasonals (Some <$> rs) m = Normal (Some <$> replicate m 1) ->
  (forall i, (i < length rs)%nat -> a + b * INR i <> 0) ->
  exists res,
    holtWinters data (Some 1) (Some 1) (Some 0) m f = Normal res
    /\ fitted <$> res !! 0%nat = Some (Some a)
    /\ (forall i, (1 <= i)%nat -> (i < length rs)%nat ->
          fitted <$> res !! i = Some (Some (a + b * INR (i + 1))))
    /\ (forall h, (1 <= h)%nat -> (h <= f)%nat ->
          fitted <$> res !! (length rs + h - 1)%nat
          = Some (Some (a + b * INR (length rs + h - 1)))).
Proof.
  intros Hdata Hm Hmn Hline Hi Hnz.
  assert (Hn : length data = length rs).
  { rewrite <- (length_fmap value), Hdata. by rewrite length_fmap. }
  rewrite <- Hdata in Hi.
  pose proof (holtWinters_eq data (Some 1) (Some 1) (Some 0) m f _ Hi) as Hres.
  assert (Hfit : forall i, (i < length rs)%nat ->
            fitted <$> (results (stateAfter data (Some 1) (Some 1) (Some 0) m
                                   (Some <$> replicate m 1) (length data)) !! i)
            = Some (Some (a + b * INR i + (if (S i =? 1)%nat then 0 else b)))).
  { intros i Hlt.
    destruct (data_lookup_exact data rs i Hdata Hlt) as (d & v & Hd & _ & _).
    destruct (linear_state data rs m a b (S i) Hdata Hm Hmn Hline Hnz) as (Hl & Ht & Hs); [lia|].
    rewrite (fitted_lookup _ _ _ _ _ _ _ _ Hd).
    cbn [fmap option_fmap option_map fitted]. rewrite Hl, Ht, Hs.
    rewrite (get_exact _ _ 1) by (apply lookup_replicate_2, Nat.mod_upper_bound; lia).
    rewrite exact_add, exact_mul. replace (S i - 1)%nat with i by lia.
    do 2 f_equal. lra. }
  eexists. split; [exact Hres|]. split; [|split].
  - rewrite lookup_app_l by (rewrite stateAfter_results_length; lia).
    rewrite Hfit by lia. cbn [Nat.eqb INR]. do 2 f_equal. lra.
  - intros i H1 Hlt. rewrite lookup_app_l by (rewrite stateAfter_results_length; lia).
    rewrite Hfit by lia. destruct i as [|i]; [lia|]. cbn [Nat.eqb].
    do 2 f_equal. replace (S i + 1)%nat with (S (S i)) by lia. rewrite (S_INR (S i)). lra.
  - intros h H1 Hf. rewrite <- Hn.
    replace (length data + h - 1)%nat with (length data + (h - 1))%nat by lia.
    rewrite (forecast_lookup _ _ _ _ _ _ _ _ _ Hi Hres) by lia.
    destruct (linear_state data rs m a b (length data) Hdata Hm Hmn Hline Hnz)
      as (Hl & Ht & Hs); [lia|].
    cbn [fmap option_fmap option_map fitted forecastPoint]. rewrite Hl, Ht, Hs.
    rewrite (get_exact _ _ 1) by (apply lookup_replicate_2, Nat.mod_upper_bound; lia).
    replace (length data =? 1)%nat with false by (symmetry; apply Nat.eqb_neq; lia).
    rewrite exact_of_nat, exact_mul, exact_add, exact_mul. do 2 f_equal.
    replace (h - 1 + 1)%nat with h by lia.
    replace (length data + (h - 1))%nat with (length data - 1 + h)%nat by lia.
    rewrite plus_INR. ring.
Qed.

(** C6, amended, on the line 1 + i of three points with period 1. *)
Lemma C6_linear_series_witness :
  value <$> exact123 = Some <$> [1; 2; 3]
  /\ (forall i, (i < 3)%nat -> [1; 2; 3] !! i = Some (1 + 1 * INR i))
  /\ initSeasonals (Some <$> [1; 2; 3]) 1 = Normal (Some <$> replicate 1 1)
  /\ exists res,
       holtWinters exact123 (Some 1) (Some 1) (Some 0) 1 2 = Normal res
       /\ fitted <$> res !! 0%nat = Some (Some 1)
       /\ (forall i, (1 <= i)%nat -> (i < 3)%nat ->
             fitted <$> res !! i = Some (Some (1 + 1 * INR (i + 1))))
       /\ (forall h, (1 <= h)%nat -> (h <= 2)%nat ->
             fitted <$> res !! (3 + h - 1)%nat = Some (Some (1 + 1 * INR (3 + h - 1)))).
Proof.
  assert (Hline : forall i, (i < 3)%nat -> [1; 2; 3] !! i = Some (1 + 1 * INR i)).
  { intros [|[|[|i]]] Hi; [cbn; f_equal; lra..|lia]. }
  split; [reflexivity|]. split; [exact Hline|]. split; [exact initSeasonals_exact_123|].
  apply (C6_linear_series exact123 [1; 2; 3] 1 2 1 1);
    [reflexivity|lia|cbn; lia|exact Hline|exact initSeasonals_exact_123|].
  intros i _. pose proof (pos_INR i). lra.
Defined.

End LinearSeries.

(** ** C7: a series no longer than the period *)

Section ShortSeries.
Local Open Scope float_scope.

(** C7, as stated, fails: the call of the claim returns four records. *)
Lemma C7_counterexample :
  holtWinters [obs 5] 0.5 0.4 0.6 12 3
  = Normal
      [ {| pt_month := None; pt_value := Some 5; fitted := nan |};
        {| pt_month := Some "Forecast 1"; pt_value := None; fitted := nan |};
        {| pt_month := Some "Forecast 2"; pt_value := None; fitted := nan |};
        {| pt_month := Some "Forecast 3"; pt_value := None; fitted := nan |} ].
Proof. vm_compute. reflexivity. Qed.

(** C7, amended. Whenever the period is positive and the series is no longer
    than the period, the call signals no error: it returns [n + h] records,
    and the fitted value of every one of them is NaN. *)
Theorem C7_short_series_all_nan {num : Type} `{NanAbsorbing num}
    (data : list (Observation num)) (alpha beta gamma : num) (m f : nat) :
  (0 < m)%nat -> (length data <= m)%nat ->
  exists res, holtWinters data alpha beta gamma m f = Normal res
              /\ length res = (length data + f)%nat
              /\ Forall (fun p => fitted p = nan) res.
Proof.
  intros Hm Hle.
  destruct (holtWinters_normal data alpha beta gamma m f Hm) as (table & Hi & _ & _).
  apply (holtWinters_poisoned _ _ _ _ _ _ table Hm Hi).
  apply initState_short_poisoned. by rewrite length_fmap.
Qed.

(** C7, amended, on the call of the claim. *)
Lemma C7_short_series_all_nan_witness :
  (0 < 12)%nat /\ (length [obs 5] <= 12)%nat
  /\ exists res, holtWinters [obs 5] 0.5 0.4 0.6 12 3 = Normal res
                 /\ length res = (length [obs 5] + 3)%nat
                 /\ Forall (fun p => fitted p = nan) res.
Proof.
  split; [lia|]. split; [cbn; lia|].
  apply (C7_short_series_all_nan [obs 5] 0.5 0.4 0.6 12 3); cbn; lia.
Defined.

End ShortSeries.

(** ** C8: a division by zero *)

Section DivisionByZero.
Local Open Scope float_scope.

(** C8, as stated, fails: the third step divides by a zero level, and the
    call returns all five records, the two fitted before it included. *)
Lemma C8_counterexample :
  initSeasonals (value <$> data1203) 1 = Normal [1]
  /\ level (stateAfter data1203 1 1 0.5 1 [1] 3) = 0
  /\ holtWinters data1203 1 1 0.5 1 1
     = Normal
         [ {| pt_month := None; pt_value := Some 1; fitted := 1 |};
           {| pt_month := None; pt_value := Some 2; fitted := 3 |};
           {| pt_month := None; pt_value := Some 0; fitted := nan |};
           {| pt_month := None; pt_value := Some 3; fitted := nan |};
           {| pt_month := Some "Forecast 1"; pt_value := None; fitted := nan |} ].
Proof. repeat split; vm_compute; reflexivity. Qed.

(** C8, amended. When the step [i] of the recurrence divides by a zero (the
    seasonal slot it reads, or the level it has just computed), no error is
    signalled and nothing is discarded: the call returns all [n + h] records,
    the records of the steps before [i] are in the output as they were
    computed, and the quotient by the zero is NaN or an infinity. *)
Theorem C8_division_by_zero_returns (data : list (Observation float))
    (alpha beta gamma : float) (m f : nat) (table : list float) (i : nat)
    (d : Observation float) :
  initSeasonals (value <$> data) m = Normal table ->
  data !! i = Some d ->
  let st := stateAfter data alpha beta gamma m table i in
  let st' := stateAfter data alpha beta gamma m table (S i) in
  let s := get (seasonals st) (i mod m) in
  PrimFloat.is_zero s = true \/ PrimFloat.is_zero (level st') = true ->
  exists res,
    holtWinters data alpha beta gamma m f = Normal res
    /\ length res = (length data + f)%nat
    /\ (forall j, (j < i)%nat -> res !! j = results st !! j)
    /\ (PrimFloat.is_finite (value d / s) = false
        \/ PrimFloat.is_finite (value d / level st') = false).
Proof.
  intros Hi Hd st st' s Hz.
  pose proof (lookup_lt_Some _ _ _ Hd) as Hlt.
  eexists. split; [exact (holtWinters_eq _ _ _ _ _ _ _ Hi)|].
  split; [exact (holtWinters_length _ _ _ _ _ _ _ _ Hi (holtWinters_eq _ _ _ _ _ _ _ Hi))|].
  split.
  - intros j Hj.
    destruct (stateAfter_results_prefix data alpha beta gamma m table i) as [pts Hpts].
    fold st in Hpts. rewrite Hpts, <- app_assoc.
    apply lookup_app_l. unfold st. rewrite stateAfter_results_length; lia.
  - destruct Hz as [Hz|Hz]; [left|right]; by apply div_by_zero_not_finite.
Qed.

(** C8, amended, on the series 1, 2, 0, 3: the third step divides by the
    level 0. *)
Lemma C8_division_by_zero_returns_witness :
  initSeasonals (value <$> data1203) 1 = Normal [1]
  /\ data1203 !! 2%nat = Some (obs 0)
  /\ PrimFloat.is_zero (level (stateAfter data1203 1 1 0.5 1 [1] 3)) = true
  /\ exists res,
       holtWinters data1203 1 1 0.5 1 1 = Normal res
       /\ length res = (length data1203 + 1)%nat
       /\ (forall j, (j < 2)%nat ->
             res !! j = results (stateAfter data1203 1 1 0.5 1 [1] 2) !! j)
       /\ (PrimFloat.is_finite
             (value (obs 0) / get (seasonals (stateAfter data1203 1 1 0.5 1 [1] 2)) (2 mod 1))
           = false
           \/ PrimFloat.is_finite
                (value (obs 0) / level (stateAfter data1203 1 1 0.5 1 [1] 3)) = false).
Proof.
  split; [reflexivity|]. split; [reflexivity|]. split; [reflexivity|].
  apply (C8_division_by_zero_returns data1203 1 1 0.5 1 1 [1] 2 (obs 0));
    [reflexivity|reflexivity|right; reflexivity].
Defined.

End DivisionByZero.

(** ** C10: no error is ever signalled for a positive period *)

Section NoError.
Local Open Scope float_scope.

(** C10, as stated, fails: with alpha = 1.5, outside [0,1], every fitted
    value of the output is finite. *)
Lemma C10_counterexample :
  (1 <? 1.5) = true
  /\ exists res, holtWinters data123 1.5 0.4 0.6 1 1 = Normal res
                 /\ Forall (fun p => PrimFloat.is_finite (fitted p) = true) res.
Proof.
  split; [reflexivity|]. eexists. split; [vm_compute; reflexivity|].
  repeat constructor.
Qed.

(** C10, amended. The period zero throws a TypeError ([reduce] of an empty
    array); with any positive period the call signals no error and returns
    exactly [n + forecastSize] records, whatever the coefficients and the
    series are; when the series is no longer than the period, or all its
    values are zero, every fitted value is NaN. *)
Theorem C10_never_signals (data : list (Observation float))
    (alpha beta gamma : float) (m f : nat) :
  (m = 0%nat -> holtWinters data alpha beta gamma m f = Throws TypeError)
  /\ ((0 < m)%nat ->
      exists res,
        holtWinters data alpha beta gamma m f = Normal res
        /\ length res = (length data + f)%nat
        /\ ((length data <= m)%nat
            \/ Forall (fun d => PrimFloat.is_zero (value d) = true) data ->
            Forall (fun p => fitted p = nan) res)).
Proof.
  split; [by intros ->|]. intros Hm.
  destruct (holtWinters_normal data alpha beta gamma m f Hm) as (table & Hi & Hlen & Hres).
  eexists. split; [exact Hres|].
  split; [exact (holtWinters_length _ _ _ _ _ _ _ _ Hi Hres)|].
  intros Hbad.
  assert (Hp : poisoned m (initState (value <$> data) m table)).
  { destruct Hbad as [Hle|Hz].
    - apply initState_short_poisoned. by rewrite length_fmap.
    - destruct (initSeasonals_all_zero (value <$> data) m Hm) as (table' & Hi' & Hlen' & Hnan).
      { apply Forall_fmap. eapply Forall_impl; [exact Hz|].
        intros d Hd. by apply is_zero_zero_or_nan. }
      rewrite Hi in Hi'. injection Hi' as <-. right. right. done. }
  destruct (holtWinters_poisoned data alpha beta gamma m f table Hm Hi Hp) as (res & Hres' & _ & Hnan).
  rewrite Hres in Hres'. by injection Hres' as ->.
Qed.

End NoError.

(** * Further properties of the code *)

(** ** How a call ends *)

(** A call throws exactly when the seasonal period is 0, for every
    series, coefficients and horizon and every number type: with a positive
    period it never throws. *)
Theorem holtWinters_throws_iff {num : Type} `{JsNum num}
    (data : list (Observation num)) (alpha beta gamma : num) (m f : nat) :
  (exists e, holtWinters data alpha beta gamma m f = Throws e) <-> m = 0.
Proof.
  split.
  - intros [e He]. destruct m as [|m]; [done|].
    destruct (holtWinters_normal data alpha beta gamma (S m) f) as (table & _ & _ & Hres); [lia|].
    rewrite Hres in He. discriminate.
  - intros ->. by exists TypeError.
Qed.

(** ** The horizon *)

(** X1. The horizon only appends: the output for a horizon [f1] is the output
    for any longer horizon [f2] cut after [n + f1] records.  In particular
    the fitted points do not depend on the horizon, and no forecast depends
    on how many forecasts follow it. *)
Theorem holtWinters_horizon_prefix {num : Type} `{JsNum num}
    (data : list (Observation num)) (alpha beta gamma : num) (m f1 f2 : nat) :
  f1 <= f2 ->
  cmap (take (length data + f1)) (holtWinters data alpha beta gamma m f2)
  = holtWinters data alpha beta gamma m f1.
Proof.
  intros Hle. destruct (initSeasonals (value <$> data) m) as [table| |] eqn:Hi.
  - rewrite !(holtWinters_eq _ _ _ _ _ _ _ Hi). unfold cmap. cbn [cbind]. f_equal.
    rewrite take_app_ge; rewrite stateAfter_results_length by lia; [|lia].
    f_equal. replace (length data + f1 - length data) with f1 by lia.
    rewrite <- fmap_take. f_equal. by rewrite take_seq, Nat.min_l.
  - unfold holtWinters. by rewrite Hi.
  - unfold holtWinters. by rewrite Hi.
Qed.

(** X1 on the series 1, 2, 3: the output for the horizon 1 is the first four
    records of the output for the horizon 5. *)
Lemma holtWinters_horizon_prefix_witness :
  1 <= 5
  /\ cmap (take (length data123 + 1)) (holtWinters data123 0.5%float 0.25%float 0.75%float 2 5)
     = holtWinters data123 0.5%float 0.25%float 0.75%float 2 1.
Proof.
  split; [lia|].
  apply (holtWinters_horizon_prefix data123 0.5%float 0.25%float 0.75%float 2 1 5). lia.
Defined.

(** ** The labels *)

Section Labels.
Context {num : Type} `{JsNum num}.
Implicit Types (data rest : list (Observation num)) (st : State num).

Lemma recurrenceLoop_labels alpha beta gamma m rest1 rest2 i st1 st2 :
  value <$> rest1 = value <$> rest2 ->
  level st1 = level st2 -> trend st1 = trend st2 -> seasonals st1 = seasonals st2 ->
  fitted <$> results st1 = fitted <$> results st2 ->
  pt_value <$> results st1 = pt_value <$> results st2 ->
  let st1' := recurrenceLoop alpha beta gamma m rest1 i st1 in
  let st2' := recurrenceLoop alpha beta gamma m rest2 i st2 in
  level st1' = level st2' /\ trend st1' = trend st2' /\ seasonals st1' = seasonals st2'
  /\ fitted <$> results st1' = fitted <$> results st2'
  /\ pt_value <$> results st1' = pt_value <$> results st2'.
Proof.
  revert rest2 i st1 st2.
  induction rest1 as [|d1 rest1 IH]; intros [|d2 rest2] i st1 st2 Hv Hl Ht Hs Hf Hp;
    try discriminate; cbn [recurrenceLoop]; [done|].
  cbn [fmap list_fmap] in Hv. injection Hv as Hd Hv.
  apply IH; [done|unfold recurrenceStep; cbn [level trend seasonals results]..].
  - by rewrite Hd, Hl, Ht, Hs.
  - by rewrite Hd, Hl, Ht, Hs.
  - by rewrite Hd, Hl, Ht, Hs.
  - rewrite !fmap_app, Hf. cbn [fmap list_fmap fitted]. by rewrite Hd, Hl, Ht, Hs.
  - rewrite !fmap_app, Hp. cbn [fmap list_fmap pt_value]. by rewrite Hd.
Qed.

End Labels.

(** X2. The labels are never read: two series with the same observed values
    in the same order, whatever their labels, end the same way, with the same
    fitted and forecast values and the same observed values in the output. *)
Theorem holtWinters_labels_unread {num : Type} `{JsNum num}
    (data1 data2 : list (Observation num)) (alpha beta gamma : num) (m f : nat) :
  value <$> data1 = value <$> data2 ->
  cmap (fmap fitted) (holtWinters data1 alpha beta gamma m f)
  = cmap (fmap fitted) (holtWinters data2 alpha beta gamma m f)
  /\ cmap (fmap pt_value) (holtWinters data1 alpha beta gamma m f)
     = cmap (fmap pt_value) (holtWinters data2 alpha beta gamma m f).
Proof.
  intros Hv. unfold holtWinters. rewrite Hv.
  destruct (initSeasonals (value <$> data2) m) as [table| |]; [|done..].
  unfold cmap. cbn [cbind].
  destruct (recurrenceLoop_labels alpha beta gamma m data1 data2 0
              (initState (value <$> data2) m table) (initState (value <$> data2) m table) Hv)
    as (Hl & Ht & Hs & Hf & Hp); [done..|].
  set (st1 := recurrenceLoop alpha beta gamma m data1 0 _) in *.
  set (st2 := recurrenceLoop alpha beta gamma m data2 0 _) in *.
  destruct (forecasts_spec (length (value <$> data2)) m f st1) as (_ & _ & _ & ->).
  destruct (forecasts_spec (length (value <$> data2)) m f st2) as (_ & _ & _ & ->).
  assert (Hfp : forecastPoint (length (value <$> data2)) m st1
                = forecastPoint (length (value <$> data2)) m st2).
  { unfold forecastPoint. by rewrite Hl, Ht, Hs. }
  rewrite !fmap_app, Hf, Hp, Hfp. done.
Qed.

(** X2 on the series 1, 2, 3, without labels and with the labels a, b, c. *)
Lemma holtWinters_labels_unread_witness :
  value <$> data123 = value <$> [obs_labelled "a" 1; obs_labelled "b" 2; obs_labelled "c" 3]
  /\ cmap (fmap fitted) (holtWinters data123 0.5%float 0.25%float 0.75%float 2 4)
     = cmap (fmap fitted)
         (holtWinters [obs_labelled "a" 1; obs_labelled "b" 2; obs_labelled "c" 3]
            0.5%float 0.25%float 0.75%float 2 4)
  /\ cmap (fmap pt_value) (holtWinters data123 0.5%float 0.25%float 0.75%float 2 4)
     = cmap (fmap pt_value)
         (holtWinters [obs_labelled "a" 1; obs_labelled "b" 2; obs_labelled "c" 3]
            0.5%float 0.25%float 0.75%float 2 4).
Proof.
  split; [reflexivity|].
  apply (holtWinters_labels_unread data123
           [obs_labelled "a" 1; obs_labelled "b" 2; obs_labelled "c" 3]
           0.5%float 0.25%float 0.75%float 2 4).
  reflexivity.
Defined.

(** ** The seasonal table during the recurrence *)

(** X3. A seasonal slot changes only at the steps of its phase: between two
    points [k1 <= k2] of the recurrence with no step of phase [p] in between,
    the slot [p] of the table is the same. *)
Theorem seasonal_slot_frame {num : Type} `{JsNum num}
    (data : list (Observation num)) (alpha beta gamma : num) (m : nat)
    (table : list num) (p k1 k2 : nat) :
  k1 <= k2 -> k2 <= length data ->
  (forall i, k1 <= i -> i < k2 -> i mod m <> p) ->
  seasonals (stateAfter data alpha beta gamma m table k2) !! p
  = seasonals (stateAfter data alpha beta gamma m table k1) !! p.
Proof.
  intros Hle. induction Hle as [|k2 Hle IH]; intros Hn Hph; [done|].
  destruct (lookup_lt_is_Some_2 data k2) as [d Hd]; [lia|].
  rewrite (stateAfter_S _ _ _ _ _ _ _ _ Hd). unfold recurrenceStep. cbn [seasonals].
  rewrite list_lookup_insert_ne by (apply Hph; lia).
  apply IH; [lia|]. intros i H1 H2. apply Hph; lia.
Qed.

(** X3 on the series 1, 2, 3 with period 2: the second step, of phase 1,
    leaves the slot 0 alone. *)
Lemma seasonal_slot_frame_witness :
  1 <= 2 /\ 2 <= length data123
  /\ (forall i, 1 <= i -> i < 2 -> i mod 2 <> 0)
  /\ seasonals (stateAfter data123 0.5%float 0.25%float 0.75%float 2 [0.5%float; 1%float] 2) !! 0
     = seasonals (stateAfter data123 0.5%float 0.25%float 0.75%float 2 [0.5%float; 1%float] 1) !! 0.
Proof.
  assert (Hph : forall i, 1 <= i -> i < 2 -> i mod 2 <> 0).
  { intros i H1 H2. replace i with 1 by lia. cbn. lia. }
  split; [lia|]. split; [cbn; lia|]. split; [exact Hph|].
  apply (seasonal_slot_frame data123 0.5%float 0.25%float 0.75%float 2
           [0.5%float; 1%float] 0 1 2); [lia|cbn; lia|exact Hph].
Defined.

(** X4. During the first seasonal cycle every step reads the factor the
    initialisation has left for its phase: for [i] below the period and the
    length of the series, the slot [i mod m] is still [table[i]] when the
    step [i] begins, and the table has kept its length. *)
Theorem first_cycle_reads_initial_table {num : Type} `{JsNum num}
    (data : list (Observation num)) (alpha beta gamma : num) (m : nat)
    (table : list num) (i : nat) :
  i < m -> i < length data ->
  get (seasonals (stateAfter data alpha beta gamma m table i)) (i mod m) = get table i
  /\ length (seasonals (stateAfter data alpha beta gamma m table i)) = length table.
Proof.
  intros Him Hin. split; [|apply stateAfter_seasonals_length].
  rewrite Nat.mod_small by done. unfold get. f_equal.
  assert (Hfr : forall k, k <= i ->
            seasonals (stateAfter data alpha beta gamma m table k) !! i = table !! i).
  { induction k as [|k IH]; intros Hk.
    - unfold stateAfter. by rewrite recurrence_0.
    - destruct (lookup_lt_is_Some_2 data k) as [d Hd]; [lia|].
      rewrite (stateAfter_S _ _ _ _ _ _ _ _ Hd). unfold recurrenceStep. cbn [seasonals].
      rewrite list_lookup_insert_ne by (rewrite Nat.mod_small; lia).
      apply IH. lia. }
  by apply Hfr.
Qed.

(** X4 on the series 1, 2, 3 with period 2, at the second step. *)
Lemma first_cycle_reads_initial_table_witness :
  1 < 2 /\ 1 < length data123
  /\ get (seasonals (stateAfter data123 0.5%float 0.25%float 0.75%float 2
                       [0.5%float; 1%float] 1)) (1 mod 2)
     = get [0.5%float; 1%float] 1
  /\ length (seasonals (stateAfter data123 0.5%float 0.25%float 0.75%float 2
                          [0.5%float; 1%float] 1))
     = length [0.5%float; 1%float].
Proof.
  split; [lia|]. split; [cbn; lia|].
  apply (first_cycle_reads_initial_table data123 0.5%float 0.25%float 0.75%float 2
           [0.5%float; 1%float] 1); cbn; lia.
Defined.

(** ** The forecasts *)

(** X5. The forecasts go round the seasonal table: the forecast [h + m] is
    made with the same seasonal factor as the forecast [h], the level and the
    trend being those of the end of the recurrence for both. *)
Theorem forecast_factor_periodic {num : Type} `{JsNum num}
    (data : list (Observation num)) (alpha beta gamma : num) (m f h : nat) :
  0 < m -> 1 <= h -> h + m <= f ->
  exists table res s,
    initSeasonals (value <$> data) m = Normal table
    /\ holtWinters data alpha beta gamma m f = Normal res
    /\ let n := length data in
       let st := stateAfter data alpha beta gamma m table n in
       s = get (seasonals st) ((n + h - 1) mod m)
       /\ fitted <$> res !! (n + h - 1) = Some ((level st + trend st * of_nat h) * s)%js
       /\ fitted <$> res !! (n + (h + m) - 1)
          = Some ((level st + trend st * of_nat (h + m)) * s)%js
       /\ pt_month <$> res !! (n + h - 1) = Some (Some ("Forecast " +:+ pretty h)).
Proof.
  intros Hm H1 Hf.
  destruct (holtWinters_normal data alpha beta gamma m f Hm) as (table & Hi & Hlen & Hres).
  exists table. eexists. eexists. split; [exact Hi|]. split; [exact Hres|].
  intros n st. split; [reflexivity|].
  replace (n + h - 1) with (n + (h - 1)) by lia.
  replace (n + (h + m) - 1) with (n + (h + m - 1)) by lia.
  rewrite !(forecast_lookup _ _ _ _ _ _ _ _ _ Hi Hres) by lia.
  cbn [fmap option_fmap option_map forecastPoint fitted pt_month].
  replace (h - 1 + 1) with h by lia. replace (h + m - 1 + 1) with (h + m) by lia.
  assert (E1 : (length data + h - 1) mod m = (length data + (h - 1)) mod m)
    by (f_equal; lia).
  assert (E2 : (length data + (h + m - 1)) mod m = (length data + (h - 1)) mod m).
  { replace (length data + (h + m - 1)) with (length data + (h - 1) + 1 * m) by lia.
    by rewrite Nat.Div0.mod_add. }
  unfold st, n. by rewrite E1, E2.
Qed.

(** X5 on the series 1, 2, 3 with period 2: the forecasts 1 and 3. *)
Lemma forecast_factor_periodic_witness :
  0 < 2 /\ 1 <= 1 /\ 1 + 2 <= 4
  /\ exists table res s,
       initSeasonals (value <$> data123) 2 = Normal table
       /\ holtWinters data123 0.5%float 0.25%float 0.75%float 2 4 = Normal res
       /\ let n := length data123 in
          let st := stateAfter data123 0.5%float 0.25%float 0.75%float 2 table n in
          s = get (seasonals st) ((n + 1 - 1) mod 2)
          /\ fitted <$> res !! (n + 1 - 1) = Some ((level st + trend st * of_nat 1) * s)%js
          /\ fitted <$> res !! (n + (1 + 2) - 1)
             = Some ((level st + trend st * of_nat (1 + 2)) * s)%js
          /\ pt_month <$> res !! (n + 1 - 1) = Some (Some ("Forecast " +:+ pretty 1)).
Proof.
  split; [lia|]. split; [lia|]. split; [lia|].
  apply (forecast_factor_periodic data123 0.5%float 0.25%float 0.75%float 2 4 1); lia.
Defined.

(** ** The seasonal initialisation *)

Section PhaseAverages.
Context {num : Type} `{JsNum num}.
Implicit Types (series : list num).

Lemma phase_gap m i j x :
  0 < m -> j mod m = i -> j < x -> x < j + m -> x mod m <> i.
Proof.
  intros Hm Hj H1 H2 Hx.
  pose proof (Nat.div_mod_eq j m) as Ej. pose proof (Nat.div_mod_eq x m) as Ex.
  rewrite Hj in Ej. rewrite Hx in Ex.
  destruct (le_lt_dec (x / m) (j / m)) as [Hle|Hlt].
  - pose proof (Nat.mul_le_mono_l _ _ m Hle). lia.
  - pose proof (Nat.mul_le_mono_l _ _ m Hlt) as Hmul. rewrite Nat.mul_succ_r in Hmul. lia.
Qed.

Lemma filter_phase_nil m i a len :
  (forall x, a <= x -> x < a + len -> x mod m <> i) ->
  filter (fun j => j mod m = i) (seq a len) = [].
Proof.
  revert a. induction len as [|len IH]; intros a Hx; [done|].
  cbn [seq]. rewrite filter_cons_False by (apply Hx; lia).
  apply IH. intros x H1 H2. apply Hx; lia.
Qed.

(** The strided loop from an index of the phase [i] adds the observations of
    that phase that are left, in order, and counts them. *)
Lemma phaseLoop_phase series m i fuel j sum count :
  0 < m -> j mod m = i -> length series - j < fuel ->
  phaseLoop series m fuel j sum count
  = Normal (fold_left nadd
              (get series <$> filter (fun j => j mod m = i) (seq j (length series - j))) sum,
            count + length (filter (fun j => j mod m = i) (seq j (length series - j)))).
Proof.
  intros Hm. revert j sum count.
  induction fuel as [|fuel IH]; intros j sum count Hj Hf; [lia|].
  cbn [phaseLoop]. destruct (j <? length series) eqn:Hlt.
  - apply Nat.ltb_lt in Hlt.
    rewrite IH; [|by rewrite <- (Nat.mul_1_l m) at 1; rewrite Nat.Div0.mod_add|lia].
    replace (length series - j) with (S (length series - j - 1)) by lia.
    cbn [seq]. rewrite filter_cons_True by done. cbn [fmap list_fmap fold_left length].
    assert (Hrest : filter (fun j => j mod m = i) (seq (S j) (length series - j - 1))
                    = filter (fun j => j mod m = i) (seq (j + m) (length series - (j + m)))).
    { destruct (le_lt_dec (j + m) (length series)) as [Hle|Hgt].
      - replace (length series - j - 1) with ((m - 1) + (length series - (j + m))) by lia.
        rewrite seq_app, filter_app.
        rewrite (filter_phase_nil m i (S j) (m - 1))
          by (intros x H1 H2; apply (phase_gap m i j x); [done|done|lia|lia]).
        cbn [app]. by replace (S j + (m - 1)) with (j + m) by lia.
      - replace (length series - (j + m)) with 0 by lia. cbn [seq].
        rewrite filter_nil. apply filter_phase_nil.
        intros x H1 H2. apply (phase_gap m i j x); [done|done|lia|lia]. }
    rewrite Hrest. f_equal. f_equal. lia.
  - apply Nat.ltb_ge in Hlt. replace (length series - j) with 0 by lia.
    cbn. by rewrite Nat.add_0_r.
Qed.

Lemma phaseIndices_from n m i :
  0 < m -> i < m -> phaseIndices n m i = filter (fun j => j mod m = i) (seq i (n - i)).
Proof.
  intros Hm Hi. unfold phaseIndices. destruct (le_lt_dec i n) as [Hle|Hgt].
  - replace n with (i + (n - i)) at 1 by lia. rewrite seq_app, filter_app.
    rewrite (filter_phase_nil m i 0 i); [done|].
    intros x _ Hx. rewrite Nat.mod_small; lia.
  - replace (n - i) with 0 by lia. cbn [seq]. rewrite filter_nil.
    apply filter_phase_nil. intros x _ Hx. rewrite Nat.mod_small; lia.
Qed.

Lemma phaseLoop_phaseAverage series m i :
  0 < m -> i < m ->
  exists r, phaseLoop series m (S (length series)) i (of_nat 0) 0 = Normal r
            /\ (fst r / of_nat (snd r))%js = phaseAverage series m i.
Proof.
  intros Hm Hi. eexists. split.
  - apply (phaseLoop_phase series m i); [done|by apply Nat.mod_small|lia].
  - cbn [fst snd]. unfold phaseAverage. by rewrite (phaseIndices_from _ _ _ Hm Hi).
Qed.

(** The outer loop after the phases below [k]: their averages, then what the
    table held before. *)
Lemma rawSeasonals_values series m k l0 :
  0 < m -> k <= m -> k <= length l0 ->
  fold_left (phaseStep series m) (seq 0 k) (Normal l0)
  = Normal ((phaseAverage series m <$> seq 0 k) ++ drop k l0).
Proof.
  intros Hm. induction k as [|k IH]; intros Hk Hl.
  - cbn. by rewrite drop_0.
  - rewrite seq_S, fold_left_app, IH by lia. cbn [fold_left Nat.add].
    destruct (phaseLoop_phaseAverage series m k Hm) as (r & Hr & Hav); [lia|].
    unfold phaseStep. cbn [cbind]. rewrite Hr. cbn [cbind]. f_equal.
    rewrite Hav, fmap_app. cbn [fmap list_fmap].
    destruct (lookup_lt_is_Some_2 l0 k) as [x Hx]; [lia|].
    rewrite (drop_S _ _ _ Hx).
    rewrite insert_app_r_alt; rewrite length_fmap, length_seq; [|lia].
    rewrite Nat.sub_diag. cbn. by rewrite <- app_assoc.
Qed.

End PhaseAverages.

(** X6. The initialisation computes the phase averages: with a positive
    period, the raw seasonal table (before the normalisation) holds for every
    phase [i] below the period the sum of the observations at the indices
    [i, i+m, i+2m, ...] below [n], added from 0 in that order, divided by their
    number; the normalised table is that table divided by its mean. *)
Theorem rawSeasonals_phase_averages {num : Type} `{JsNum num}
    (series : list num) (m : nat) :
  0 < m ->
  rawSeasonals series m = Normal (phaseAverage series m <$> seq 0 m)
  /\ exists mean,
       seasonalMean (phaseAverage series m <$> seq 0 m) m = Normal mean
       /\ initSeasonals series m
          = Normal ((fun i => phaseAverage series m i / mean)%js <$> seq 0 m).
Proof.
  intros Hm.
  assert (Hraw : rawSeasonals series m = Normal (phaseAverage series m <$> seq 0 m)).
  { unfold rawSeasonals. rewrite rawSeasonals_values; [|done|done|by rewrite length_replicate].
    rewrite drop_ge by (by rewrite length_replicate). by rewrite app_nil_r. }
  split; [done|].
  destruct (seasonalMean_normal (phaseAverage series m <$> seq 0 m) m) as [mean Hmean].
  { rewrite length_fmap, length_seq. done. }
  exists mean. split; [done|].
  unfold initSeasonals. rewrite Hraw. cbn [cbind]. rewrite Hmean. cbn [cbind].
  by rewrite <- list_fmap_compose.
Qed.

(** X6 on the series 1, 2, 3 with period 2: the phases are the indices 0, 2
    and the index 1. *)
Lemma rawSeasonals_phase_averages_witness :
  0 < 2
  /\ phaseIndices 3 2 0 = [0; 2] /\ phaseIndices 3 2 1 = [1]
  /\ rawSeasonals [1; 2; 3]%float 2 = Normal (phaseAverage [1; 2; 3]%float 2 <$> seq 0 2)
  /\ exists mean,
       seasonalMean (phaseAverage [1; 2; 3]%float 2 <$> seq 0 2) 2 = Normal mean
       /\ initSeasonals [1; 2; 3]%float 2
          = Normal ((fun i => phaseAverage [1; 2; 3]%float 2 i / mean)%js <$> seq 0 2).
Proof.
  split; [lia|]. split; [reflexivity|]. split; [reflexivity|].
  apply (rawSeasonals_phase_averages [1; 2; 3]%float 2). lia.
Defined.

(** ** A NaN among the observations *)

Section NanObservation.
Context {num : Type} `{NanAbsorbing num}.
Implicit Types (series : list num).

Lemma fold_add_nan (l : list num) x :
  x = nan \/ nan ∈ l -> fold_left nadd l x = nan.
Proof.
  revert x. induction l as [|y l IH]; intros x [Hx|Hl]; cbn [fold_left].
  - done.
  - by apply elem_of_nil in Hl.
  - apply IH. left. by rewrite Hx, nadd_nan_l.
  - apply elem_of_cons in Hl as [<-|Hl]; apply IH; [left|by right].
    by rewrite nadd_nan_r.
Qed.

Lemma phaseAverage_nan series m j :
  0 < m -> series !! j = Some nan -> phaseAverage series m (j mod m) = nan.
Proof.
  intros Hm Hj. unfold phaseAverage. rewrite fold_add_nan; [by rewrite ndiv_nan_l|].
  right. apply list_elem_of_fmap. exists j. split.
  - unfold get. by rewrite Hj.
  - unfold phaseIndices. apply list_elem_of_filter. split; [done|].
    apply elem_of_seq. apply lookup_lt_Some in Hj. lia.
Qed.

(** One NaN among the observations: the whole normalised table is NaN. *)
Lemma initSeasonals_nan series m j :
  0 < m -> series !! j = Some nan ->
  exists table, initSeasonals series m = Normal table
                /\ length table = m /\ Forall (fun s => s = nan) table.
Proof.
  intros Hm Hj. unfold initSeasonals, rawSeasonals.
  rewrite rawSeasonals_values; [|done|done|by rewrite length_replicate].
  rewrite drop_ge by (by rewrite length_replicate). rewrite app_nil_r. cbn [cbind].
  assert (Hin : nan ∈ phaseAverage series m <$> seq 0 m).
  { apply list_elem_of_fmap. exists (j mod m). split; [by rewrite phaseAverage_nan|].
    apply elem_of_seq. pose proof (Nat.mod_upper_bound j m). lia. }
  destruct (phaseAverage series m <$> seq 0 m) as [|x raw] eqn:Hraw.
  { by apply elem_of_nil in Hin. }
  assert (Hlen : length (x :: raw) = m) by (by rewrite <- Hraw, length_fmap, length_seq).
  cbn [seasonalMean reduce_add cbind].
  rewrite (fold_add_nan raw x), ndiv_nan_l.
  - eexists. split; [done|]. split; [by rewrite length_fmap|].
    apply Forall_fmap, Forall_forall. intros v _. cbn. apply ndiv_nan_r.
  - apply elem_of_cons in Hin as [<-|Hin]; [by left|by right].
Qed.

End NanObservation.

(** X7. One NaN among the observations spoils the whole output: with a
    positive period, whatever its index, every fitted value and every
    forecast of the call is NaN (the NaN enters its phase average, hence the
    mean and the whole normalised table), and no error is signalled. *)
Theorem nan_observation_spoils_output {num : Type} `{NanAbsorbing num}
    (data : list (Observation num)) (alpha beta gamma : num) (m f j : nat)
    (d : Observation num) :
  0 < m -> data !! j = Some d -> value d = nan ->
  exists res, holtWinters data alpha beta gamma m f = Normal res
              /\ length res = length data + f
              /\ Forall (fun p => fitted p = nan) res.
Proof.
  intros Hm Hd Hv.
  destruct (initSeasonals_nan (value <$> data) m j Hm) as (table & Hi & Hlen & Hnan).
  { by rewrite list_lookup_fmap, Hd, <- Hv. }
  apply (holtWinters_poisoned _ _ _ _ _ _ table Hm Hi).
  right. right. done.
Qed.

(** X7 on the series 1, NaN, 3, 4, 5 with period 2 in binary64. *)
Lemma nan_observation_spoils_output_witness :
  0 < 2 /\ [obs 1; obs PrimFloat.nan; obs 3; obs 4; obs 5] !! 1 = Some (obs PrimFloat.nan)
  /\ value (obs PrimFloat.nan) = nan
  /\ exists res,
       holtWinters [obs 1; obs PrimFloat.nan; obs 3; obs 4; obs 5]
         0.5%float 0.25%float 0.75%float 2 2 = Normal res
       /\ length res = length [obs 1; obs PrimFloat.nan; obs 3; obs 4; obs 5] + 2
       /\ Forall (fun p => fitted p = nan) res.
Proof.
  split; [lia|]. split; [reflexivity|]. split; [reflexivity|].
  apply (nan_observation_spoils_output
           [obs 1; obs PrimFloat.nan; obs 3; obs 4; obs 5]
           0.5%float 0.25%float 0.75%float 2 2 1 (obs PrimFloat.nan));
    [lia|reflexivity|reflexivity].
Defined.

(** ** The sample data and the chart *)

Section SampleDataFacts.
Context {num : Type} `{JsMath num}.
Implicit Types (data rest : list (Observation num)) (st : State num).

Lemma fold_left_push {A B : Type} (F : B -> A) (l : list B) (acc : list A) :
  fold_left (fun pushed x => pushed ++ [F x]) l acc = acc ++ (F <$> l).
Proof.
  revert acc. induction l as [|x l IH]; intros acc; cbn [fold_left fmap list_fmap].
  - by rewrite app_nil_r.
  - by rewrite IH, <- app_assoc.
Qed.

(** The loop of [generateSampleData] builds one record per index below 36. *)
Lemma generateSampleData_eq (draws : nat -> num) :
  generateSampleData draws = (fun i => samplePoint (draws i) i) <$> seq 0 36.
Proof. unfold generateSampleData. by rewrite fold_left_push. Qed.

Lemma generateSampleData_length (draws : nat -> num) :
  length (generateSampleData draws) = 36.
Proof. by rewrite generateSampleData_eq, length_fmap, length_seq. Qed.

Lemma generateSampleData_months (draws : nat -> num) :
  month <$> generateSampleData draws
  = (fun k => Some ("Month " +:+ pretty k)) <$> seq 1 36.
Proof.
  rewrite generateSampleData_eq, <- list_fmap_compose.
  rewrite <- (fmap_S_seq 0 36), <- list_fmap_compose.
  apply list_fmap_ext. intros i k _. cbn. by rewrite Nat.add_1_r.
Qed.

(** The recurrence copies the labels of the observations. *)
Lemma recurrenceLoop_months alpha beta gamma m rest i st :
  pt_month <$> results (recurrenceLoop alpha beta gamma m rest i st)
  = (pt_month <$> results st) ++ (month <$> rest).
Proof.
  revert i st. induction rest as [|d rest IH]; intros i st; cbn [recurrenceLoop].
  - by rewrite app_nil_r.
  - rewrite IH. unfold recurrenceStep. cbn [results]. rewrite fmap_app, <- app_assoc. done.
Qed.

Lemma holtWinters_months data alpha beta gamma m f table :
  initSeasonals (value <$> data) m = Normal table ->
  exists res, holtWinters data alpha beta gamma m f = Normal res
              /\ pt_month <$> res
                 = (month <$> data)
                   ++ ((fun k => Some ("Forecast " +:+ pretty k)) <$> seq 1 f).
Proof.
  intros Hi. eexists. split; [exact (holtWinters_eq _ _ _ _ _ _ _ Hi)|].
  rewrite fmap_app. f_equal.
  - unfold stateAfter. rewrite recurrence_all, recurrenceLoop_months. done.
  - rewrite <- list_fmap_compose, <- (fmap_S_seq 0 f), <- list_fmap_compose.
    apply list_fmap_ext. intros i k _. cbn. by rewrite Nat.add_1_r.
Qed.

End SampleDataFacts.

(** X10. What the chart is given: for every outcome of the random draws and
    every position of the three sliders, the call of the component returns 48
    records, labelled [Month 1] to [Month 36] and then [Forecast 1] to
    [Forecast 12], and no two records have the same label, the key of the
    chart's horizontal axis. *)
Theorem chart_labels {num : Type} `{JsMath num} (draws : nat -> num)
    (alpha beta gamma : num) :
  exists res,
    chartData draws alpha beta gamma = Normal res
    /\ length res = 48
    /\ pt_month <$> res
       = ((fun k => Some ("Month " +:+ pretty k)) <$> seq 1 36)
         ++ ((fun k => Some ("Forecast " +:+ pretty k)) <$> seq 1 12)
    /\ NoDup (pt_month <$> res).
Proof.
  unfold chartData, processedData.
  destruct (holtWinters_normal (generateSampleData draws) alpha beta gamma 12 12)
    as (table & Hi & _ & Hres); [lia|].
  destruct (holtWinters_months (generateSampleData draws) alpha beta gamma 12 12 table Hi)
    as (res & Hres' & Hmonths).
  exists res. split; [exact Hres'|]. split.
  { rewrite (holtWinters_length _ _ _ _ _ _ _ _ Hi Hres'), generateSampleData_length. done. }
  rewrite generateSampleData_months in Hmonths. split; [exact Hmonths|].
  rewrite Hmonths. apply (bool_decide_unpack _). vm_compute. exact I.
Qed.
